(** * FDTD integration of the 1-D Schroedinger equation: a shallow embedding

    The development follows the three modules of the package:
    - [potentials.py]: the class [Potential] and its four subclasses,
    - [particle.py]:   the Gaussian wave packet [Particle],
    - [simulation.py]: the class [Simulation] with its generator [simulate].

    The values of floating point numbers are modelled by the real numbers of
    the Standard Library, and the arithmetic on them is exact.  Rounding is
    modelled where it decides the shape of an array: the number of points of
    [np.arange] is the ceiling of a quotient computed in binary64, so the
    product [N*dx], the difference [stop - start] and the quotient are
    rounded to the nearest binary64 number ([fl]).  numpy arrays of shape
    [(n,)] are modelled by [list R], Python integers by [Z] and array
    lengths by [nat].  Python exceptions and [warnings.warn] are threaded
    through a small error-and-log monad. *)

From Stdlib Require Import Reals Lra Lia ZArith.
From stdpp Require Import gmap strings list fin_maps.

Open Scope R_scope.

(** ** Exceptions, warnings and the monad of Python computations *)

Inductive exn : Type :=
| TypeError
| ValueError
| AttributeError
| IndexError
| ZeroDivisionError.

(** The two calls of [warnings.warn] in [potentials.py].  The second one
    formats the closest coordinate, the position and the tolerance into its
    message; the model keeps the three numbers. *)
Inductive warning : Type :=
| ScaleMissesPotential
| OutsideTolerance (closest pos eps : R).

Inductive result (A : Type) : Type :=
| Ok (a : A)
| Raise (e : exn).
Arguments Ok {A} a.
Arguments Raise {A} e.

(** A computation emits warnings (in order) and then returns or raises. *)
Definition M (A : Type) : Type := (list warning * result A)%type.

Definition ret {A} (a : A) : M A := ([], Ok a).
Definition raise {A} (e : exn) : M A := ([], Raise e).
Definition warn (w : warning) : M unit := ([w], Ok tt).

Definition bind {A B} (m : M A) (f : A -> M B) : M B :=
  match m with
  | (ws, Ok a) => let '(ws', r) := f a in (ws ++ ws', r)
  | (ws, Raise e) => (ws, Raise e)
  end.

Notation "x <- m ;; k" := (bind m (fun x => k))
  (at level 100, m at next level, right associativity).
Notation "m ;;; k" := (bind m (fun _ => k))
  (at level 100, right associativity).

(** ** Comparisons of floats as booleans *)

Definition Rltb (x y : R) : bool := if Rlt_dec x y then true else false.
Definition Rleb (x y : R) : bool := if Rle_dec x y then true else false.
Definition Rgtb (x y : R) : bool := Rltb y x.
Definition Rgeb (x y : R) : bool := Rleb y x.
Definition Reqb (x y : R) : bool := if Req_dec_T x y then true else false.

(** Division of two Python scalars raises on a zero divisor. *)
Definition py_div (x y : R) : M R :=
  if Req_dec_T y 0 then raise ZeroDivisionError else ret (x / y).

(** ** Rounding to binary64

    [fl x] is the binary64 number nearest to [x], a tie going to the even
    significand: 53 bits of precision and gradual underflow down to
    [2^-1074].  The exponent is not bounded above: there is no overflow to
    infinity. *)

(** The nearest integer, a tie going to the even one. *)
Definition round_half_even (r : R) : Z :=
  let n := Zfloor r in
  if Rltb (r - IZR n) (1 / 2) then n
  else if Rltb (1 / 2) (r - IZR n) then (n + 1)%Z
  else if Z.even n then n else (n + 1)%Z.

(** The exponent of [x <> 0]: [2^(mag x - 1) <= |x| < 2^(mag x)]. *)
Definition mag (x : R) : Z := up (ln (Rabs x) / ln 2).

(** The exponent of the last bit of a number of exponent [e]. *)
Definition fexp (e : Z) : Z := Z.max (e - 53) (-1074).

Definition fl (x : R) : R :=
  if Req_dec_T x 0 then 0
  else
    let e := fexp (mag x) in
    IZR (round_half_even (x * powerRZ 2 (- e))) * powerRZ 2 e.

(** The numbers of the format: an integer of at most 53 bits times a power
    of two that is at least [2^-1074]. *)
Definition binary64 (x : R) : Prop :=
  exists m e : Z,
    x = IZR m * powerRZ 2 e /\ (Z.abs m < 2 ^ 53)%Z /\ (-1074 <= e)%Z.

(** ** numpy arrays of shape [(n,)] *)

Definition zeros (n : nat) : list R := replicate n 0.

Definition np_sum (a : list R) : R := fold_right Rplus 0 a.

(** Elementwise operation of two arrays: the shapes agree (and the
    operation runs through both, [zip_with]), or one of the operands has
    length one and is stretched; anything else is a [ValueError] (operands
    could not be broadcast together). *)
Definition np_map2 (f : R -> R -> R) (a b : list R) : M (list R) :=
  if Nat.eqb (length a) (length b) then ret (zip_with f a b)
  else match a, b with
       | [x], _ => ret (map (f x) b)
       | _, [y] => ret (map (fun x => f x y) a)
       | _, _ => raise ValueError
       end.

(** In-place operation [a op= b] and slice assignment [a[...] = b]: the
    right-hand side is broadcast to the shape of [a], which is kept. *)
Definition np_broadcast_to (n : nat) (b : list R) : M (list R) :=
  if Nat.eqb (length b) n then ret b
  else match b with
       | [y] => ret (replicate n y)
       | _ => raise ValueError
       end.

Definition np_imap2 (f : R -> R -> R) (a b : list R) : M (list R) :=
  b' <- np_broadcast_to (length a) b ;;
  ret (zip_with f a b').

(** Integer-array indexing: the gather [a[idx]] and the scatter
    [a[idx] = vals]; an index outside the array is an [IndexError]. *)
Fixpoint np_take (a : list R) (idx : list nat) : M (list R) :=
  match idx with
  | [] => ret []
  | i :: idx' =>
      match a !! i with
      | Some v => vs <- np_take a idx' ;; ret (v :: vs)
      | None => raise IndexError
      end
  end.

Fixpoint np_put_loop (a : list R) (idx : list nat) (vals : list R) : M (list R) :=
  match idx, vals with
  | i :: idx', v :: vals' =>
      if Nat.ltb i (length a) then np_put_loop (<[i:=v]> a) idx' vals'
      else raise IndexError
  | _, _ => ret a
  end.

Definition np_put (a : list R) (idx : list nat) (vals : list R) : M (list R) :=
  vals' <- np_broadcast_to (length idx) vals ;;
  np_put_loop a idx vals'.

(** Boolean-mask assignment [a[mask] = v] with a scalar [v]. *)
Fixpoint np_mask_set (a : list R) (mask : list bool) (v : R) : list R :=
  match a, mask with
  | x :: a', b :: mask' => (if b then v else x) :: np_mask_set a' mask' v
  | _, _ => a
  end.

(** The builtins [min] and [max] on an array: a [ValueError] on the empty
    sequence, otherwise the first smallest (largest) element. *)
Definition py_min (a : list R) : M R :=
  match a with
  | [] => raise ValueError
  | x :: a' => ret (fold_left (fun acc v => if Rltb v acc then v else acc) a' x)
  end.

Definition py_max (a : list R) : M R :=
  match a with
  | [] => raise ValueError
  | x :: a' => ret (fold_left (fun acc v => if Rgtb v acc then v else acc) a' x)
  end.

(** [np.where(cond)[0][0]]: the first index at which the condition holds;
    indexing the empty index array is an [IndexError]. *)
Fixpoint first_index (cond : list bool) : option nat :=
  match cond with
  | [] => None
  | true :: _ => Some O
  | false :: cond' => S <$> first_index cond'
  end.

Definition np_where_first (cond : list bool) : M nat :=
  match first_index cond with
  | Some i => ret i
  | None => raise IndexError
  end.

Definition np_item (a : list R) (i : nat) : M R :=
  match a !! i with
  | Some v => ret v
  | None => raise IndexError
  end.

Definition np_setitem (a : list R) (i : nat) (v : R) : M (list R) :=
  if Nat.ltb i (length a) then ret (<[i:=v]> a) else raise IndexError.

(** ** Python objects: a class tag and the instance dictionary *)

Inductive pyval : Type :=
| VNum (r : R)
| VStr (s : string).

(** What the evaluation methods receive and return: a number, or an array
    (the argument that has an [__iter__] attribute). *)
Inductive pyarg : Type :=
| Scalar (x : R)
| Array (xs : list R).

(** * potentials.py *)
Module potentials.

Inductive class : Type :=
| Potential
| NullPotential
| PointPotential
| BarrierPotential
| StepPotential.

Record object : Type := { cls : class; attrs : gmap string pyval }.

Definition setattr (self : object) (name : string) (v : pyval) : object :=
  {| cls := cls self; attrs := <[name := v]> (attrs self) |}.

(** Reading a missing attribute raises [AttributeError]. *)
Definition getattr (self : object) (name : string) : M pyval :=
  match attrs self !! name with
  | Some v => ret v
  | None => raise AttributeError
  end.

(** An attribute used as a number (in arithmetic, a comparison or an array
    store); the constructors below only ever store numbers there. *)
Definition getnum (self : object) (name : string) : M R :=
  v <- getattr self name ;;
  match v with
  | VNum r => ret r
  | VStr _ => raise TypeError
  end.

(** [Potential.__init__(self, name='generic')] *)
Definition Potential_init (c : class) (name : string) : object :=
  {| cls := c; attrs := {[ "name"%string := VStr name ]} |}.

(** The constructors of the four subclasses: [super().__init__(name=...)],
    the defaults of the keyword arguments left at [None], and the attribute
    assignments in the order of the source. *)
Definition NullPotential_init : object :=
  let self := Potential_init NullPotential "Free particle" in
  setattr self "A" (VNum 0).

Definition PointPotential_init (A : R) (pos tolerance : option R) : object :=
  let self := Potential_init PointPotential "Point potential" in
  let pos := default 0 pos in
  let tolerance := default (1 / 10000) tolerance in
  let self := setattr self "A" (VNum A) in
  let self := setattr self "pos" (VNum pos) in
  setattr self "epsilon" (VNum tolerance).

Definition BarrierPotential_init (A width : R) (pos : option R) : object :=
  let self := Potential_init BarrierPotential "Barrier potential" in
  let pos := default 0 pos in
  let self := setattr self "A" (VNum A) in
  let self := setattr self "width" (VNum width) in
  setattr self "pos" (VNum pos).

Definition StepPotential_init (A : R) (pos : option R) : object :=
  let self := Potential_init StepPotential "Step potential" in
  let pos := default 0 pos in
  let self := setattr self "A" (VNum A) in
  setattr self "pos" (VNum pos).

(** *** The evaluation methods [_fx] (a number) and [_farr] (an array) *)

(** [Potential._fx] and [Potential._farr] call [NotImplemented(...)], which
    is not callable. *)
Definition Potential_fx (self : object) (x : R) : M pyarg := raise TypeError.
Definition Potential_farr (self : object) (x : list R) : M pyarg := raise TypeError.

Definition NullPotential_fx (self : object) (x : R) : M pyarg := ret (Scalar 0).

Definition NullPotential_farr (self : object) (x : list R) : M pyarg :=
  ret (Array (zeros (length x))).

Definition PointPotential_fx (self : object) (x : R) : M pyarg :=
  let lhs := Rabs x in
  pos <- getnum self "pos" ;;
  tol <- getnum self "tolerance" ;;
  if Rleb lhs (pos + tol) then
    A <- getnum self "A" ;; ret (Scalar A)
  else ret (Scalar 0).

Definition PointPotential_farr (self : object) (x : list R) : M pyarg :=
  let res := zeros (length x) in
  mn <- py_min x ;;
  pos <- getnum self "pos" ;;
  outside <- (if Rgtb mn pos then ret true
              else mx <- py_max x ;;
                   pos <- getnum self "pos" ;;
                   ret (Rltb mx pos)) ;;
  if (outside : bool) then
    warn ScaleMissesPotential ;;;
    ret (Array res)
  else
    pos <- getnum self "pos" ;;
    let shiftx := map (fun xi => Rabs (xi - pos)) x in
    mshift <- py_min shiftx ;;
    idx <- np_where_first (map (fun s => Reqb s mshift) shiftx) ;;
    xi <- np_item x idx ;;
    pos <- getnum self "pos" ;;
    eps <- getnum self "epsilon" ;;
    if Rgtb (Rabs xi) (Rabs (pos + eps)) then
      xi <- np_item x idx ;;
      pos <- getnum self "pos" ;;
      eps <- getnum self "epsilon" ;;
      warn (OutsideTolerance xi pos eps) ;;;
      ret (Array res)
    else
      A <- getnum self "A" ;;
      res <- np_setitem res idx A ;;
      ret (Array res).

Definition BarrierPotential_fx (self : object) (x : R) : M pyarg :=
  let lhs := Rabs x in
  pos <- getnum self "pos" ;;
  width <- getnum self "width" ;;
  if Rleb lhs (Rabs (pos + width)) then
    A <- getnum self "A" ;; ret (Scalar A)
  else ret (Scalar 0).

Definition BarrierPotential_farr (self : object) (x : list R) : M pyarg :=
  let res := zeros (length x) in
  pos <- getnum self "pos" ;;
  let ge_pos := map (fun xi => Rgeb xi pos) x in
  pos <- getnum self "pos" ;;
  width <- getnum self "width" ;;
  let le_hi := map (fun xi => Rleb xi (pos + width)) x in
  A <- getnum self "A" ;;
  let res := np_mask_set res (zip_with andb ge_pos le_hi) A in
  pos <- getnum self "pos" ;;
  let lt_pos := map (fun xi => Rltb xi pos) x in
  pos <- getnum self "pos" ;;
  width <- getnum self "width" ;;
  let ge_lo := map (fun xi => Rgeb xi (pos - width)) x in
  A <- getnum self "A" ;;
  let res := np_mask_set res (zip_with andb lt_pos ge_lo) A in
  ret (Array res).

Definition StepPotential_fx (self : object) (x : R) : M pyarg :=
  pos <- getnum self "pos" ;;
  if Rltb x pos then
    A <- getnum self "A" ;; ret (Scalar A)
  else ret (Scalar 0).

Definition StepPotential_farr (self : object) (x : list R) : M pyarg :=
  let res := zeros (length x) in
  pos <- getnum self "pos" ;;
  let mask := map (fun xi => Rgeb xi pos) x in
  A <- getnum self "A" ;;
  ret (Array (np_mask_set res mask A)).

(** Method resolution of [self._fx] and [self._farr] on the class. *)
Definition _fx (self : object) (x : R) : M pyarg :=
  match cls self with
  | Potential => Potential_fx self x
  | NullPotential => NullPotential_fx self x
  | PointPotential => PointPotential_fx self x
  | BarrierPotential => BarrierPotential_fx self x
  | StepPotential => StepPotential_fx self x
  end.

Definition _farr (self : object) (x : list R) : M pyarg :=
  match cls self with
  | Potential => Potential_farr self x
  | NullPotential => NullPotential_farr self x
  | PointPotential => PointPotential_farr self x
  | BarrierPotential => BarrierPotential_farr self x
  | StepPotential => StepPotential_farr self x
  end.

(** [Potential.f]: arrays have an [__iter__] attribute and go to [_farr],
    numbers go to [_fx]. *)
Definition f (self : object) (x : pyarg) : M pyarg :=
  match x with
  | Array xs => _farr self xs
  | Scalar x => _fx self x
  end.

End potentials.

(** * particle.py *)
Module particle.

Record Particle : Type :=
  { x0 : R; m : R; sigma : R; k0 : R; E : R }.

Definition hbar : R := 1.

(** The default of the keyword argument [m]. *)
Definition default_m : R := 1.

(** [k0 ** 2] on the constructor's argument, which may be [None]. *)
Definition py_sqr_opt (k : option R) : M R :=
  match k with
  | Some k => ret (k ^ 2)
  | None => raise TypeError
  end.

(** [Particle.__init__(self, x0, sigma, k0=None, m=1)].  The energy is
    computed from the argument [k0], not from [self.k0]; the divisions by
    [m] and by [sigma**2] are divisions of Python scalars. *)
Definition Particle_init (x0 sigma : R) (k0 : option R) (m : R) : M Particle :=
  let self_k0 := match k0 with None => PI / 20 | Some k => k end in
  h2m <- py_div (hbar ^ 2 / 2) m ;;
  k2 <- py_sqr_opt k0 ;;
  s <- py_div (1 / 2) (sigma ^ 2) ;;
  ret {| x0 := x0; m := m; sigma := sigma; k0 := self_k0;
         E := h2m * (k2 + s) |}.

(** The three vectorised evaluations of the wave packet. *)
Definition envelope (self : Particle) (t x : R) : R :=
  exp (- (x - t - x0 self) ^ 2 / (2 * sigma self ^ 2)).

Definition real (self : Particle) (x : list R) (t : R) : list R :=
  map (fun xi => envelope self t xi * cos (k0 self * xi)) x.

Definition imag (self : Particle) (x : list R) (t : R) : list R :=
  map (fun xi => envelope self t xi * sin (k0 self * xi)) x.

Definition prob (self : Particle) (x : list R) (t : R) : list R :=
  zip_with Rplus (map (fun v => v ^ 2) (real self x t))
                 (map (fun v => v ^ 2) (imag self x t)).

End particle.

(** * simulation.py *)
Module simulation.

Import potentials.
Import particle(Particle, hbar, x0, m, sigma, k0, E).

(** [np.arange(start, stop, step)] on floats: [ceil((stop - start)/step)]
    points [start + i*step] (none when that number is negative); a zero step
    raises.  The difference and the quotient are the binary64 ones, so the
    number of points is the ceiling of a rounded quotient. *)
Definition Rceil (r : R) : Z := (1 - up (- r))%Z.

Definition np_arange (start stop step : R) : M (list R) :=
  if Req_dec_T step 0 then raise ZeroDivisionError
  else
    let n := Z.to_nat (Rceil (fl (fl (stop - start) / step))) in
    ret (map (fun i => start + INR i * step) (seq 0 n)).

(** [range(n)] *)
Definition py_range (n : Z) : list Z := map Z.of_nat (seq 0 (Z.to_nat n)).

(** [t % d] on integers: the sign follows the divisor, as [Z.modulo] does. *)
Definition py_mod (t d : Z) : M Z :=
  if Z.eqb d 0 then raise ZeroDivisionError else ret (t mod d)%Z.

Record Simulation : Type :=
  { N : nat;
    T : Z;
    dx : R;
    dt : option R;
    scale : list R;
    potentials : list object;
    V : list R;
    p : Particle }.

Definition default_N : nat := 1200.
Definition default_dx : R := 1.

(** [V += pot.f(self.scale)] *)
Definition np_iadd (V : list R) (r : pyarg) : M (list R) :=
  match r with
  | Array b => np_imap2 Rplus V b
  | Scalar y => ret (map (fun v => v + y) V)
  end.

Fixpoint evalPotentials_loop (V : list R) (scale : list R) (pots : list object)
  : M (list R) :=
  match pots with
  | [] => ret V
  | pot :: pots' =>
      r <- f pot (Array scale) ;;
      V' <- np_iadd V r ;;
      evalPotentials_loop V' scale pots'
  end.

(** [Simulation.evalPotentials], on the attributes it reads. *)
Definition evalPotentials (N : nat) (potentials : list object) (scale : list R)
  : M (list R) :=
  evalPotentials_loop (zeros N) scale potentials.

(** [Simulation.__init__] *)
Definition Simulation_init (particle : Particle) (potentials : list object)
    (N : nat) (dx : R) (xlims : option (R * R)) (T : option Z) (dt : option R)
  : M Simulation :=
  let T := match T with None => (5 * Z.of_nat N)%Z | Some T => T end in
  let startx := match xlims with None => 0 | Some (lo, _) => lo end in
  let endx := match xlims with None => fl (INR N * dx) | Some (_, hi) => hi end in
  scale <- np_arange startx endx dx ;;
  V <- evalPotentials N potentials scale ;;
  ret {| N := N; T := T; dx := dx; dt := dt; scale := scale;
         potentials := potentials; V := V; p := particle |}.

(** *** The triple buffers *)

(** The time slices, used as the row indices 0, 1, 2. *)
Inductive slice : Type := PA | PR | FU.

(** An array of shape [(3, N)]: one row per time slice. *)
Record psi : Type := { past : list R; present : list R; future : list R }.

Definition row (a : psi) (s : slice) : list R :=
  match s with
  | PA => past a
  | PR => present a
  | FU => future a
  end.

Definition set_row (a : psi) (s : slice) (v : list R) : psi :=
  match s with
  | PA => {| past := v; present := present a; future := future a |}
  | PR => {| past := past a; present := v; future := future a |}
  | FU => {| past := past a; present := present a; future := v |}
  end.

Definition psi_zeros (n : nat) : psi :=
  {| past := zeros n; present := zeros n; future := zeros n |}.

(** [a[s] = v]: the row keeps its length, [v] is broadcast to it. *)
Definition assign_row (a : psi) (s : slice) (v : list R) : M psi :=
  v' <- np_broadcast_to (length (row a s)) v ;;
  ret (set_row a s v').

(** [a /= c] on the whole array. *)
Definition psi_idiv (a : psi) (c : R) : psi :=
  {| past := map (fun v => v / c) (past a);
     present := map (fun v => v / c) (present a);
     future := map (fun v => v / c) (future a) |}.

Record state : Type := { psi_r : psi; psi_i : psi }.

(** Shapes: an array of shape [(3, n)], and a pair of them. *)
Definition has_shape (n : nat) (a : psi) : Prop :=
  length (past a) = n /\ length (present a) = n /\ length (future a) = n.

Definition state_shape (n : nat) (st : state) : Prop :=
  has_shape n (psi_r st) /\ has_shape n (psi_i st).

(** The dictionary yielded by the generator, with the arrays as they are at
    the moment of the [yield]. *)
Record snapshot : Type := { prob : list R; real : list R; imag : list R }.

(** *** [Simulation.simulate], in the order of its statements *)

(** The time step. *)
Definition time_step (self : Simulation) : M R :=
  match dt self with
  | None =>
      kin <- py_div (2 * hbar ^ 2) (m (p self) * dx self ^ 2) ;;
      vmax <- py_max (V self) ;;
      ret (hbar / (kin + vmax))
  | Some dt => ret dt
  end.

(** Allocation, seeding of the past and present slices at [t = 0], and the
    normalisation.  Returns the two buffers and the array [psi_p]. *)
Definition initial_state (self : Simulation) : M (state * list R) :=
  let psi_r := psi_zeros (N self) in
  let psi_i := psi_zeros (N self) in
  psi_r <- assign_row psi_r PR (particle.real (p self) (scale self) 0) ;;
  psi_i <- assign_row psi_i PR (particle.imag (p self) (scale self) 0) ;;
  psi_r <- assign_row psi_r PA (particle.real (p self) (scale self) 0) ;;
  psi_i <- assign_row psi_i PA (particle.imag (p self) (scale self) 0) ;;
  let psi_p := particle.prob (p self) (scale self) 0 in
  let P := dx self * np_sum psi_p in
  let nrm := sqrt P in
  let psi_r := psi_idiv psi_r nrm in
  let psi_i := psi_idiv psi_i nrm in
  let psi_p := map (fun v => v / P) psi_p in
  ret ({| psi_r := psi_r; psi_i := psi_i |}, psi_p).

(** The discrete Laplacian [a[IDX2] - 2*a[IDX1] + a[IDX3]] of a row. *)
Definition laplacian (a : list R) (IDX1 IDX2 IDX3 : list nat) : M (list R) :=
  a2 <- np_take a IDX2 ;;
  a1 <- np_take a IDX1 ;;
  d <- np_map2 Rminus a2 (map (Rmult 2) a1) ;;
  a3 <- np_take a IDX3 ;;
  np_map2 Rplus d a3.

(** One pass through the body of the [for] loop, up to and including the
    rotation.  The index arrays [IDX1], [IDX2], [IDX3] are the ones computed
    before the loop.  [psi_rPR] and [psi_iPR] are views of the present rows:
    they are read from the buffer as it is when they are used (no statement
    writes to a present row before the rotation). *)
Definition step (n : nat) (c1 : R) (c2V : list R) (st : state) : M state :=
  let IDX1 := seq 1 (n - 2) in
  let IDX2 := seq 2 (n - 2) in
  let IDX3 := seq 0 (n - 2) in
  let psi_r := psi_r st in
  let psi_i := psi_i st in
  (* psi_i[FU,IDX1] = psi_i[PA,IDX1] + c1*(...) *)
  pa <- np_take (row psi_i PA) IDX1 ;;
  lap <- laplacian (row psi_r PR) IDX1 IDX2 IDX3 ;;
  rhs <- np_map2 Rplus pa (map (Rmult c1) lap) ;;
  fu <- np_put (row psi_i FU) IDX1 rhs ;;
  let psi_i := set_row psi_i FU fu in
  (* psi_i[FU] -= c2V*psi_r[PR] *)
  pot <- np_map2 Rmult c2V (row psi_r PR) ;;
  fu <- np_imap2 Rminus (row psi_i FU) pot ;;
  let psi_i := set_row psi_i FU fu in
  (* psi_r[FU,IDX1] = psi_r[PA,IDX1] - c1*(...) *)
  pa <- np_take (row psi_r PA) IDX1 ;;
  lap <- laplacian (row psi_i PR) IDX1 IDX2 IDX3 ;;
  rhs <- np_map2 Rminus pa (map (Rmult c1) lap) ;;
  fu <- np_put (row psi_r FU) IDX1 rhs ;;
  let psi_r := set_row psi_r FU fu in
  (* psi_r[FU] += c2V*psi_i[PR] *)
  pot <- np_map2 Rmult c2V (row psi_i PR) ;;
  fu <- np_imap2 Rplus (row psi_r FU) pot ;;
  let psi_r := set_row psi_r FU fu in
  (* PR -> PA and FU -> PR *)
  psi_r <- assign_row psi_r PA (row psi_r PR) ;;
  psi_r <- assign_row psi_r PR (row psi_r FU) ;;
  psi_i <- assign_row psi_i PA (row psi_i PR) ;;
  psi_i <- assign_row psi_i PR (row psi_i FU) ;;
  ret {| psi_r := psi_r; psi_i := psi_i |}.

(** The dictionary built at the [yield]. *)
Definition sample (st : state) : M snapshot :=
  psi_p <- np_map2 Rplus (map (fun v => v ^ 2) (row (psi_r st) PR))
                         (map (fun v => v ^ 2) (row (psi_i st) PR)) ;;
  ret {| prob := psi_p; real := row (psi_r st) PR; imag := row (psi_i st) PR |}.

(** The [for] loop over the values [ts] of [t] still to come.  The result is
    the sequence of dictionaries the generator yields, or the exception
    that ends it. *)
Fixpoint loop (n : nat) (c1 : R) (c2V : list R) (deltaT : Z) (ts : list Z)
    (st : state) : M (list snapshot) :=
  match ts with
  | [] => ret []
  | t :: ts' =>
      st' <- step n c1 c2V st ;;
      r <- py_mod t deltaT ;;
      if Z.eqb r 0 then
        s <- sample st' ;;
        rest <- loop n c1 c2V deltaT ts' st' ;;
        ret (s :: rest)
      else loop n c1 c2V deltaT ts' st'
  end.

(** The constants of the update equations. *)
Definition constants (self : Simulation) (dt : R) : M (R * list R) :=
  c1 <- py_div (hbar * dt) (m (p self) * dx self ^ 2) ;;
  let c2 := 2 * dt / hbar in
  let c2V := map (Rmult c2) (V self) in
  ret (c1, c2V).

Definition simulate (self : Simulation) (deltaT : Z) : M (list snapshot) :=
  dt <- time_step self ;;
  init <- initial_state self ;;
  cs <- constants self dt ;;
  loop (N self) (fst cs) (snd cs) deltaT (py_range (T self + 1)) (fst init).

(** The simulations on which [simulate] gets past its set-up: the field has
    [N] values (as [evalPotentials] makes it), the grid has [N] points or a
    single one that is broadcast, the denominator [m * dx**2] is not zero,
    and the field is not empty when the time step is derived from its
    maximum. *)
Definition runnable (self : Simulation) : Prop :=
  length (V self) = N self /\
  (length (scale self) = N self \/ length (scale self) = 1%nat) /\
  m (p self) * dx self ^ 2 <> 0 /\
  (dt self = None -> N self <> 0%nat).

End simulation.

(** ** Configurations used in the examples below *)
Module examples.

Import potentials particle simulation.

(** [Particle(x0=1, sigma=1, k0=0, m=1)] *)
Definition packet : Particle :=
  {| x0 := 1; m := 1; sigma := 1; k0 := 0;
     E := hbar ^ 2 / 2 / 1 * (0 ^ 2 + 1 / 2 / 1 ^ 2) |}.

(** The grid [0, 1, 2] and the zero field of
    [Simulation(packet, [NullPotential()], N=3, dx=1.)]. *)
Definition free3 : Simulation :=
  {| N := 3; T := 15; dx := 1; dt := None;
     scale := map (fun i => 0 + INR i * 1) (seq 0 3);
     potentials := [NullPotential_init];
     V := zip_with Rplus (zeros 3) (zeros 3);
     p := packet |}.

(** The one-point grid and the zero field of
    [Simulation(packet, [NullPotential()], N=3, dx=1., xlims=(0, 1))]. *)
Definition one_point3 : Simulation :=
  {| N := 3; T := 15; dx := 1; dt := None;
     scale := map (fun i => 0 + INR i * 1) (seq 0 1);
     potentials := [NullPotential_init];
     V := zip_with Rplus (zeros 3) (replicate 3 0);
     p := packet |}.

(** The binary64 number that the literal [0.1] denotes. *)
Definition tenth : R := 3602879701896397 / 36028797018963968.

End examples.

(** * Properties *)

(** ** The monad *)

Lemma bind_ret_l {A B} (a : A) (k : A -> M B) : bind (ret a) k = k a.
Proof. unfold bind, ret. destruct (k a). reflexivity. Qed.

Lemma bind_raise_l {A B} (e : exn) (k : A -> M B) : bind (raise e) k = raise e.
Proof. reflexivity. Qed.

Lemma bind_warn_ret {A} (w : warning) (a : A) : bind (warn w) (fun _ => ret a) = ([w], Ok a).
Proof. reflexivity. Qed.

Lemma bind_assoc {A B C} (c : M A) (k : A -> M B) (h : B -> M C) :
  bind (bind c k) h = bind c (fun a => bind (k a) h).
Proof.
  destruct c as [ws [a|e]]; [|reflexivity]. cbn.
  destruct (k a) as [ws1 [b|e1]]; cbn; [|reflexivity].
  destruct (h b) as [ws2 r]. rewrite app_assoc. reflexivity.
Qed.

Lemma bind_Ok_inv {A B} (c : M A) (k : A -> M B) (ws : list warning) (b : B) :
  bind c k = (ws, Ok b) ->
  exists ws1 a ws2, c = (ws1, Ok a) /\ k a = (ws2, Ok b) /\ ws = ws1 ++ ws2.
Proof.
  destruct c as [ws1 [a|e]]; cbn; [| discriminate].
  destruct (k a) as [ws2 r] eqn:Hk. intros [= <- ->].
  exists ws1, a, ws2. auto.
Qed.

(** ** Comparisons *)

Lemma Rltb_true x y : x < y -> Rltb x y = true.
Proof. intros H. unfold Rltb. destruct (Rlt_dec x y); [reflexivity | contradiction]. Qed.

Lemma Rltb_false x y : y <= x -> Rltb x y = false.
Proof. intros H. unfold Rltb. destruct (Rlt_dec x y); [lra | reflexivity]. Qed.

Lemma Rleb_true x y : x <= y -> Rleb x y = true.
Proof. intros H. unfold Rleb. destruct (Rle_dec x y); [reflexivity | contradiction]. Qed.

Lemma Rleb_false x y : y < x -> Rleb x y = false.
Proof. intros H. unfold Rleb. destruct (Rle_dec x y); [lra | reflexivity]. Qed.

Lemma Reqb_true x y : x = y -> Reqb x y = true.
Proof. intros H. unfold Reqb. destruct (Req_dec_T x y); [reflexivity | contradiction]. Qed.

Lemma Reqb_false x y : x <> y -> Reqb x y = false.
Proof. intros H. unfold Reqb. destruct (Req_dec_T x y); [contradiction | reflexivity]. Qed.

(** Closed comparisons of numerals, possibly under [Rabs]. *)
Ltac Rclosed :=
  unfold Rabs;
  repeat match goal with
         | |- context [Rcase_abs ?x] => destruct (Rcase_abs x)
         end;
  lra.

Ltac Rdecide :=
  unfold Rgtb, Rgeb;
  repeat match goal with
         | |- context [Rltb ?a ?b] =>
             first [rewrite (Rltb_true a b) by Rclosed
                   | rewrite (Rltb_false a b) by Rclosed]
         | |- context [Rleb ?a ?b] =>
             first [rewrite (Rleb_true a b) by Rclosed
                   | rewrite (Rleb_false a b) by Rclosed]
         | |- context [Reqb ?a ?b] =>
             first [rewrite (Reqb_true a b) by Rclosed
                   | rewrite (Reqb_false a b) by Rclosed]
         end.

(** ** Rounding to binary64 *)

Lemma ln2_pos : 0 < ln 2.
Proof. pose proof ln_lt_2. lra. Qed.

Lemma powerRZ2_exp (k : Z) : powerRZ 2 k = exp (IZR k * ln 2).
Proof. rewrite powerRZ_Rpower by lra. reflexivity. Qed.

Lemma powerRZ2_pos (k : Z) : 0 < powerRZ 2 k.
Proof. apply powerRZ_lt. lra. Qed.

Lemma powerRZ2_le (j k : Z) : (j <= k)%Z -> powerRZ 2 j <= powerRZ 2 k.
Proof.
  intros H. rewrite !powerRZ2_exp.
  destruct (Z.eq_dec j k) as [-> | Hne]; [lra |].
  left. apply exp_increasing. apply Rmult_lt_compat_r; [exact ln2_pos |].
  apply IZR_lt. lia.
Qed.

Lemma powerRZ2_lt (j k : Z) : (j < k)%Z -> powerRZ 2 j < powerRZ 2 k.
Proof.
  intros H. rewrite !powerRZ2_exp.
  apply exp_increasing. apply Rmult_lt_compat_r; [exact ln2_pos |].
  apply IZR_lt. lia.
Qed.

Lemma powerRZ2_plus (j k : Z) : powerRZ 2 (j + k) = powerRZ 2 j * powerRZ 2 k.
Proof. apply powerRZ_add. lra. Qed.

Lemma powerRZ2_cancel (k : Z) : powerRZ 2 (- k) * powerRZ 2 k = 1.
Proof. rewrite <- powerRZ2_plus. replace (- k + k)%Z with 0%Z by lia. reflexivity. Qed.

Lemma powerRZ2_nonneg (k : Z) : (0 <= k)%Z -> powerRZ 2 k = IZR (2 ^ k).
Proof.
  intros H. rewrite <- (Z2Nat.id k H) at 1. rewrite <- pow_powerRZ.
  rewrite pow_IZR. rewrite Z2Nat.id by exact H. reflexivity.
Qed.

(** The exponent of a non-zero number. *)
Lemma mag_spec (x : R) :
  x <> 0 -> powerRZ 2 (mag x - 1) <= Rabs x < powerRZ 2 (mag x).
Proof.
  intros Hx. assert (Ha : 0 < Rabs x) by (apply Rabs_pos_lt; exact Hx).
  unfold mag. set (r := ln (Rabs x) / ln 2).
  destruct (archimed r) as [H1 H2].
  assert (Hr : ln (Rabs x) = r * ln 2).
  { unfold r. field. pose proof ln2_pos. lra. }
  rewrite <- (exp_ln (Rabs x) Ha) at 1 2. rewrite Hr, !powerRZ2_exp.
  pose proof ln2_pos as Hl. split.
  - destruct (Req_dec (IZR (up r - 1)) r) as [-> | Hne]; [lra |].
    left. apply exp_increasing. apply Rmult_lt_compat_r; [exact Hl |].
    rewrite minus_IZR in *. lra.
  - apply exp_increasing. apply Rmult_lt_compat_r; [exact Hl | lra].
Qed.

Lemma mag_unique (x : R) (e : Z) :
  powerRZ 2 (e - 1) <= Rabs x < powerRZ 2 e -> mag x = e.
Proof.
  intros [H1 H2].
  assert (Hx : x <> 0).
  { intros ->. rewrite Rabs_R0 in H1. pose proof (powerRZ2_pos (e - 1)). lra. }
  destruct (mag_spec x Hx) as [H3 H4].
  destruct (Z_lt_le_dec (mag x) e) as [Hlt | Hge].
  - pose proof (powerRZ2_le (mag x) (e - 1) ltac:(lia)). lra.
  - destruct (Z_lt_le_dec e (mag x)) as [Hlt | Hle]; [| lia].
    pose proof (powerRZ2_le e (mag x - 1) ltac:(lia)). lra.
Qed.

Lemma mag_le (x : R) (e : Z) : x <> 0 -> Rabs x < powerRZ 2 e -> (mag x <= e)%Z.
Proof.
  intros Hx H. destruct (mag_spec x Hx) as [H1 _].
  destruct (Z_lt_le_dec e (mag x)) as [Hlt | Hle]; [| exact Hle].
  pose proof (powerRZ2_le e (mag x - 1) ltac:(lia)). lra.
Qed.

(** Rounding to the nearest integer *)
Lemma round_half_even_IZR (k : Z) : round_half_even (IZR k) = k.
Proof.
  unfold round_half_even. rewrite ZfloorZ.
  rewrite Rltb_true by lra. reflexivity.
Qed.

Lemma round_half_even_error (r : R) : Rabs (IZR (round_half_even r) - r) <= 1 / 2.
Proof.
  unfold round_half_even. pose proof (Zfloor_bound r) as [H1 H2].
  set (n := Zfloor r) in *.
  unfold Rltb.
  destruct (Rlt_dec (r - IZR n) (1 / 2)).
  - apply Rabs_le. lra.
  - destruct (Rlt_dec (1 / 2) (r - IZR n)).
    + rewrite plus_IZR. apply Rabs_le. lra.
    + destruct (Z.even n); [| rewrite plus_IZR]; apply Rabs_le; lra.
Qed.

Lemma round_half_even_near (r : R) (k : Z) :
  Rabs (r - IZR k) < 1 / 2 -> round_half_even r = k.
Proof.
  intros H. apply Rabs_def2 in H as [H1 H2].
  unfold round_half_even.
  destruct (Rle_lt_dec (IZR k) r) as [Hle | Hlt].
  - rewrite (Zfloor_eq k r) by lra. rewrite Rltb_true by lra. reflexivity.
  - rewrite (Zfloor_eq (k - 1) r) by (rewrite minus_IZR; lra).
    rewrite minus_IZR. rewrite Rltb_false by lra. rewrite Rltb_true by lra. lia.
Qed.

Lemma round_half_even_tie (r : R) (k : Z) :
  r = IZR k + 1 / 2 ->
  round_half_even r = if Z.even k then k else (k + 1)%Z.
Proof.
  intros ->. unfold round_half_even.
  rewrite (Zfloor_eq k) by lra.
  rewrite Rltb_false by lra. rewrite Rltb_false by lra. reflexivity.
Qed.

(** Rounding of a number with exponent [e]. *)
Lemma fl_eval (x : R) (e : Z) :
  powerRZ 2 (e - 1) <= Rabs x < powerRZ 2 e ->
  fl x = IZR (round_half_even (x * powerRZ 2 (- fexp e))) * powerRZ 2 (fexp e).
Proof.
  intros H. unfold fl. rewrite (mag_unique x e H).
  destruct (Req_dec_T x 0) as [-> | _]; [| reflexivity].
  rewrite Rabs_R0 in H. pose proof (powerRZ2_pos (e - 1)). lra.
Qed.

(** The numbers of the format are not changed. *)
Lemma fl_scaled (m e : Z) :
  (Z.abs m < 2 ^ 53)%Z -> (-1074 <= e)%Z ->
  fl (IZR m * powerRZ 2 e) = IZR m * powerRZ 2 e.
Proof.
  intros Hm He. unfold fl.
  destruct (Req_dec_T (IZR m * powerRZ 2 e) 0) as [-> | Hx]; [reflexivity |].
  set (x := IZR m * powerRZ 2 e) in *.
  assert (Hmag : (mag x <= e + 53)%Z).
  { apply mag_le; [exact Hx |]. unfold x.
    rewrite Rabs_mult, (Rabs_pos_eq (powerRZ 2 e)) by (left; apply powerRZ2_pos).
    rewrite powerRZ2_plus, Rmult_comm.
    apply Rmult_lt_compat_l; [apply powerRZ2_pos |].
    rewrite <- abs_IZR. rewrite powerRZ2_nonneg by lia. apply IZR_lt. exact Hm. }
  assert (Hf : (fexp (mag x) <= e)%Z) by (unfold fexp; lia).
  set (E := fexp (mag x)) in *.
  assert (Hs : x * powerRZ 2 (- E) = IZR (m * 2 ^ (e - E))).
  { unfold x. rewrite mult_IZR, <- powerRZ2_nonneg by lia.
    rewrite Rmult_assoc, <- powerRZ2_plus. reflexivity. }
  rewrite Hs, round_half_even_IZR, <- Hs.
  rewrite Rmult_assoc, powerRZ2_cancel. lra.
Qed.

Lemma fl_binary64 (x : R) : binary64 x -> fl x = x.
Proof. intros (m & e & -> & Hm & He). apply fl_scaled; assumption. Qed.

Lemma fl_IZR (k : Z) : (Z.abs k < 2 ^ 53)%Z -> fl (IZR k) = IZR k.
Proof.
  intros H. pose proof (fl_scaled k 0 H ltac:(lia)) as E.
  cbn [powerRZ] in E. rewrite Rmult_1_r in E. exact E.
Qed.

Lemma fl_0 : fl 0 = 0.
Proof. unfold fl. destruct (Req_dec_T 0 0); [reflexivity | contradiction]. Qed.

Lemma fl_eq_IZR (x : R) (k : Z) : x = IZR k -> (Z.abs k < 2 ^ 53)%Z -> fl x = IZR k.
Proof. intros ->. apply fl_IZR. Qed.

Lemma powerRZ2_neg (p : positive) : powerRZ 2 (Z.neg p) = / IZR (2 ^ Z.pos p).
Proof.
  change (Z.neg p) with (- Z.pos p)%Z.
  rewrite powerRZ_neg', powerRZ2_nonneg by lia. reflexivity.
Qed.

(** Powers of two with a closed exponent, as numerals. *)
Ltac pow2 :=
  repeat match goal with
  | |- context [powerRZ 2 ?k] =>
      let k' := eval vm_compute in k in
      match k' with
      | Z.neg ?p =>
          let v := eval vm_compute in (2 ^ Z.pos p)%Z in
          replace (powerRZ 2 k) with (/ IZR v)
            by (symmetry; exact (powerRZ2_neg p))
      | Z.pos ?p =>
          let v := eval vm_compute in (2 ^ Z.pos p)%Z in
          replace (powerRZ 2 k) with (IZR v)
            by (symmetry; exact (powerRZ2_nonneg (Z.pos p) ltac:(lia)))
      end
  end.

(** Rounding of a positive number of exponent [e], given the rounding of its
    scaled value. *)
Lemma fl_pos_eval (x : R) (e k : Z) :
  powerRZ 2 (e - 1) <= x < powerRZ 2 e ->
  round_half_even (x * powerRZ 2 (- fexp e)) = k ->
  fl x = IZR k * powerRZ 2 (fexp e).
Proof.
  intros H <-. apply fl_eval. rewrite Rabs_pos_eq; [exact H |].
  pose proof (powerRZ2_pos (e - 1)). lra.
Qed.

Lemma Rabs_le_inv (x y : R) : Rabs x <= y -> - y <= x <= y.
Proof. unfold Rabs. destruct (Rcase_abs x); lra. Qed.

Lemma round_half_even_bound (s : R) (K : Z) :
  Rabs s <= IZR K -> (Z.abs (round_half_even s) <= K)%Z.
Proof.
  intros H. pose proof (round_half_even_error s) as He.
  apply Rabs_le_inv in H. apply Rabs_le_inv in He.
  apply Z.abs_le. split.
  - apply Z.lt_succ_r. apply lt_IZR. rewrite succ_IZR, opp_IZR. lra.
  - apply Z.lt_succ_r. apply lt_IZR. rewrite succ_IZR. lra.
Qed.

(** The scaled value of [x] stays below [2^53]. *)
Lemma scaled_bound (x : R) :
  x <> 0 -> Rabs (x * powerRZ 2 (- fexp (mag x))) < IZR (2 ^ 53).
Proof.
  intros Hx. destruct (mag_spec x Hx) as [_ H].
  rewrite Rabs_mult, (Rabs_pos_eq (powerRZ 2 _)) by (left; apply powerRZ2_pos).
  rewrite <- powerRZ2_nonneg by lia.
  apply Rlt_le_trans with (powerRZ 2 (mag x) * powerRZ 2 (- fexp (mag x))).
  - apply Rmult_lt_compat_r; [apply powerRZ2_pos | exact H].
  - rewrite <- powerRZ2_plus. apply powerRZ2_le. unfold fexp. lia.
Qed.

Lemma fl_format (x : R) : binary64 (fl x).
Proof.
  unfold fl. destruct (Req_dec_T x 0) as [_ | Hx].
  - exists 0%Z, 0%Z. cbn [powerRZ]. split; [lra | lia].
  - set (E := fexp (mag x)). set (k := round_half_even (x * powerRZ 2 (- E))).
    assert (Hk : (Z.abs k <= 2 ^ 53)%Z).
    { apply round_half_even_bound. left. apply scaled_bound. exact Hx. }
    assert (HE : (-1074 <= E)%Z) by (unfold E, fexp; lia).
    destruct (Z.eq_dec (Z.abs k) (2 ^ 53)%Z) as [Heq | Hne].
    + exists (Z.sgn k), (E + 53)%Z. split; [| lia].
      rewrite (Z.add_comm E), powerRZ2_plus, (powerRZ2_nonneg 53) by lia.
      rewrite <- Heq, <- Rmult_assoc, <- mult_IZR, Z.mul_comm, Z.abs_sgn. reflexivity.
    + exists k, E. split; [reflexivity | lia].
Qed.

Lemma fl_idem (x : R) : fl (fl x) = fl x.
Proof. apply fl_binary64, fl_format. Qed.

(** The rounding error is at most half a unit in the last place. *)
Lemma fl_error (x : R) :
  x <> 0 -> Rabs (fl x - x) <= powerRZ 2 (fexp (mag x)) / 2.
Proof.
  intros Hx. unfold fl. destruct (Req_dec_T x 0) as [? | _]; [contradiction |].
  set (E := fexp (mag x)). set (s := x * powerRZ 2 (- E)).
  assert (Hs : x = s * powerRZ 2 E)
    by (unfold s; rewrite Rmult_assoc, powerRZ2_cancel; lra).
  rewrite Hs at 1.
  rewrite <- Rmult_minus_distr_r, Rabs_mult.
  rewrite (Rabs_pos_eq (powerRZ 2 E)) by (left; apply powerRZ2_pos).
  pose proof (round_half_even_error s). pose proof (powerRZ2_pos E). nra.
Qed.

Lemma powerRZ2_half (k : Z) : powerRZ 2 (k - 1) = powerRZ 2 k / 2.
Proof.
  replace (k - 1)%Z with (k + -1)%Z by lia. rewrite powerRZ2_plus.
  replace (powerRZ 2 (-1)) with (/ 2) by (simpl; rewrite Rmult_1_r; reflexivity). reflexivity.
Qed.

(** In the normal range the relative error is at most [2^-53]. *)
Lemma fl_rel_error (x : R) :
  x <> 0 -> (-1074 <= mag x - 53)%Z ->
  Rabs (fl x - x) <= powerRZ 2 (-53) * Rabs x.
Proof.
  intros Hx Hn. pose proof (fl_error x Hx) as He.
  destruct (mag_spec x Hx) as [H1 _].
  replace (fexp (mag x)) with (mag x - 53)%Z in He by (unfold fexp; lia).
  replace (mag x - 53)%Z with (-53 + (mag x - 1) + 1)%Z in He by lia.
  rewrite powerRZ2_plus, powerRZ2_plus in He.
  replace (powerRZ 2 1) with 2 in He by (simpl; lra).
  pose proof (powerRZ2_pos (-53)).
  assert (powerRZ 2 (-53) * powerRZ 2 (mag x - 1) <= powerRZ 2 (-53) * Rabs x)
    by (apply Rmult_le_compat_l; lra).
  lra.
Qed.

(** An integer multiple of a binary64 number is rounded with a relative
    error of at most [2^-53], gradual underflow included. *)
Lemma fl_multiple (n : Z) (dx : R) :
  binary64 dx ->
  Rabs (fl (IZR n * dx) - IZR n * dx) <= powerRZ 2 (-53) * Rabs (IZR n * dx).
Proof.
  intros (m & e & -> & Hm & He).
  set (x := IZR n * (IZR m * powerRZ 2 e)).
  destruct (Req_dec x 0) as [E0 | Hx].
  { rewrite E0, fl_0, Rminus_0_r, Rabs_R0. lra. }
  destruct (Z_le_gt_dec (-1074) (mag x - 53)) as [Hn | Hs].
  { apply fl_rel_error; assumption. }
  assert (Hf : fexp (mag x) = (-1074)%Z) by (unfold fexp; lia).
  assert (E : fl x = x).
  { unfold fl. destruct (Req_dec_T x 0) as [? | _]; [contradiction |].
    rewrite Hf.
    assert (Hsc : x * powerRZ 2 (- -1074) = IZR (n * m * 2 ^ (e + 1074))).
    { unfold x. rewrite !mult_IZR, <- powerRZ2_nonneg by lia.
      rewrite powerRZ2_plus. replace (- -1074)%Z with 1074%Z by lia. ring. }
    rewrite Hsc, round_half_even_IZR, <- Hsc.
    rewrite Rmult_assoc, powerRZ2_cancel. lra. }
  rewrite E, Rminus_diag, Rabs_R0.
  pose proof (powerRZ2_pos (-53)). pose proof (Rabs_pos x). nra.
Qed.

(** ** Arrays *)

Lemma py_div_nonzero (x y : R) : y <> 0 -> py_div x y = ret (x / y).
Proof.
  intros H. unfold py_div. destruct (Req_dec_T y 0); [contradiction | reflexivity].
Qed.

Lemma length_zeros n : length (zeros n) = n.
Proof. apply length_replicate. Qed.

Lemma lookup_zeros n i : (i < n)%nat -> zeros n !! i = Some 0.
Proof. intros H. unfold zeros. apply lookup_replicate_2. exact H. Qed.

Lemma np_mask_set_zeros (mask : list bool) (v : R) :
  np_mask_set (zeros (length mask)) mask v = map (fun b : bool => if b then v else 0) mask.
Proof.
  unfold zeros. induction mask as [|b mask IH]; cbn; [reflexivity | rewrite IH; reflexivity].
Qed.

(** The running minimum of [min(x)]: an element of the array that bounds
    all of them from below. *)
Lemma fold_min_spec (l : list R) (acc : R) :
  let r := fold_left (fun acc v => if Rltb v acc then v else acc) l acc in
  In r (acc :: l) /\ r <= acc /\ Forall (fun v => r <= v) l.
Proof.
  revert acc. induction l as [|v l IH]; intros acc; cbn.
  - repeat split; [left; reflexivity | lra | constructor].
  - specialize (IH (if Rltb v acc then v else acc)). cbn in IH.
    destruct IH as (Hin & Hle & Hall). unfold Rltb in *.
    destruct (Rlt_dec v acc) as [Hlt|Hge].
    + repeat split; [| lra | constructor; [exact Hle | exact Hall]].
      destruct Hin as [<-|Hin]; [right; left; reflexivity | right; right; exact Hin].
    + repeat split; [| lra | constructor; [lra | exact Hall]].
      destruct Hin as [<-|Hin]; [left; reflexivity | right; right; exact Hin].
Qed.

Lemma fold_max_spec (l : list R) (acc : R) :
  let r := fold_left (fun acc v => if Rgtb v acc then v else acc) l acc in
  In r (acc :: l) /\ acc <= r /\ Forall (fun v => v <= r) l.
Proof.
  revert acc. induction l as [|v l IH]; intros acc; cbn.
  - repeat split; [left; reflexivity | lra | constructor].
  - specialize (IH (if Rgtb v acc then v else acc)). cbn in IH.
    destruct IH as (Hin & Hle & Hall). unfold Rgtb, Rltb in *.
    destruct (Rlt_dec acc v) as [Hlt|Hge].
    + repeat split; [| lra | constructor; [exact Hle | exact Hall]].
      destruct Hin as [<-|Hin]; [right; left; reflexivity | right; right; exact Hin].
    + repeat split; [| lra | constructor; [lra | exact Hall]].
      destruct Hin as [<-|Hin]; [left; reflexivity | right; right; exact Hin].
Qed.

Lemma py_min_spec (x : list R) :
  x <> [] -> exists mn, py_min x = ret mn /\ In mn x /\ Forall (fun v => mn <= v) x.
Proof.
  destruct x as [|a x]; [congruence | intros _].
  destruct (fold_min_spec x a) as (Hin & Hle & Hall).
  eexists. split; [reflexivity | split; [exact Hin | constructor; assumption]].
Qed.

Lemma py_max_spec (x : list R) :
  x <> [] -> exists mx, py_max x = ret mx /\ In mx x /\ Forall (fun v => v <= mx) x.
Proof.
  destruct x as [|a x]; [congruence | intros _].
  destruct (fold_max_spec x a) as (Hin & Hle & Hall).
  eexists. split; [reflexivity | split; [exact Hin | constructor; assumption]].
Qed.

(** ** Array operations on matching shapes *)

Lemma np_broadcast_to_same (n : nat) (b : list R) :
  length b = n -> np_broadcast_to n b = ret b.
Proof.
  intros H. unfold np_broadcast_to. rewrite (proj2 (Nat.eqb_eq _ _) H). reflexivity.
Qed.

Lemma np_broadcast_to_one (n : nat) (y : R) :
  np_broadcast_to n [y] = ret (replicate n y).
Proof.
  unfold np_broadcast_to. destruct (Nat.eqb_spec (length [y]) n) as [<-|_]; reflexivity.
Qed.

Lemma np_broadcast_to_length (n : nat) (b r : list R) (ws : list warning) :
  np_broadcast_to n b = (ws, Ok r) -> length r = n.
Proof.
  unfold np_broadcast_to. destruct (Nat.eqb_spec (length b) n) as [Heq|_].
  - intros [= _ <-]. exact Heq.
  - destruct b as [|y [|z b]]; try discriminate.
    intros [= _ <-]. apply length_replicate.
Qed.

Lemma np_broadcast_to_ok (n : nat) (b : list R) :
  length b = n \/ length b = 1%nat ->
  exists b', np_broadcast_to n b = ret b' /\ length b' = n /\ (length b = n -> b' = b).
Proof.
  intros [H|H].
  - exists b. rewrite np_broadcast_to_same by exact H. auto.
  - destruct b as [|y [|z b]]; try discriminate.
    destruct (Nat.eq_dec n 1%nat) as [->|Hn].
    + exists [y]. rewrite np_broadcast_to_same by reflexivity. auto.
    + exists (replicate n y). rewrite np_broadcast_to_one.
      split; [reflexivity |]. split; [apply length_replicate |].
      cbn. intros <-. contradiction.
Qed.

Lemma np_map2_same (f : R -> R -> R) (a b : list R) :
  length a = length b -> np_map2 f a b = ret (zip_with f a b).
Proof.
  intros H. unfold np_map2. rewrite (proj2 (Nat.eqb_eq _ _) H). reflexivity.
Qed.

Lemma np_imap2_same (f : R -> R -> R) (a b : list R) :
  length b = length a -> np_imap2 f a b = ret (zip_with f a b).
Proof.
  intros H. unfold np_imap2. rewrite np_broadcast_to_same by exact H.
  rewrite bind_ret_l. reflexivity.
Qed.

Lemma length_zip_same {A B C} (f : A -> B -> C) (a : list A) (b : list B) :
  length a = length b -> length (zip_with f a b) = length a.
Proof. intros H. rewrite length_zip_with. lia. Qed.

Lemma np_take_ok (a : list R) (idx : list nat) :
  Forall (fun i => (i < length a)%nat) idx ->
  exists vs, np_take a idx = ret vs /\ length vs = length idx.
Proof.
  induction 1 as [|i idx Hi _ (vs & IH & Hlen)]; cbn.
  - exists []. split; reflexivity.
  - destruct (lookup_lt_is_Some_2 a i Hi) as [v ->].
    rewrite IH, bind_ret_l. exists (v :: vs). cbn. split; [reflexivity | lia].
Qed.

(** The scatter keeps the shape and leaves every index it is not given
    as it was. *)
Lemma np_put_loop_ok (idx : list nat) : forall (a vals : list R),
  Forall (fun i => (i < length a)%nat) idx ->
  exists r, np_put_loop a idx vals = ret r /\ length r = length a /\
            forall j, j ∉ idx -> r !! j = a !! j.
Proof.
  induction idx as [|i idx IH]; intros a vals Hidx; cbn [np_put_loop].
  - exists a. destruct vals; repeat split; reflexivity.
  - destruct vals as [|v vals]; [exists a; repeat split; reflexivity |].
    inversion Hidx as [|? ? Hi Hrest]; subst.
    rewrite (proj2 (Nat.ltb_lt _ _) Hi).
    destruct (IH (<[i:=v]> a) vals) as (r & -> & Hlen & Hframe).
    { rewrite length_insert. exact Hrest. }
    exists r. split; [reflexivity |]. split; [rewrite Hlen; apply length_insert |].
    intros j Hj. rewrite not_elem_of_cons in Hj. destruct Hj as [Hne Hj].
    rewrite Hframe by exact Hj. apply list_lookup_insert_ne. congruence.
Qed.

Lemma np_put_ok (a vals : list R) (idx : list nat) :
  Forall (fun i => (i < length a)%nat) idx ->
  length vals = length idx ->
  exists r, np_put a idx vals = ret r /\ length r = length a /\
            forall j, j ∉ idx -> r !! j = a !! j.
Proof.
  intros Hidx Hlen. unfold np_put.
  rewrite np_broadcast_to_same by exact Hlen. rewrite bind_ret_l.
  apply np_put_loop_ok. exact Hidx.
Qed.

Lemma seq_in_range (start len n : nat) :
  (len <> 0 -> start + len <= n)%nat -> Forall (fun i => (i < n)%nat) (seq start len).
Proof.
  intros H. apply Forall_forall. intros i Hi. apply elem_of_seq in Hi. lia.
Qed.

(** ** potentials.py *)
Section potentials_facts.
Import potentials.

(** The attributes the constructors store, and the one they do not. *)
Ltac attr_lookup :=
  unfold getnum, getattr, NullPotential_init, PointPotential_init,
    BarrierPotential_init, StepPotential_init, Potential_init, setattr;
  cbn [attrs cls]; simplify_map_eq; reflexivity.

Lemma StepPotential_pos A pos :
  getnum (StepPotential_init A pos) "pos" = ret (default 0 pos).
Proof. attr_lookup. Qed.

Lemma StepPotential_A A pos : getnum (StepPotential_init A pos) "A" = ret A.
Proof. attr_lookup. Qed.

Lemma PointPotential_pos A pos tol :
  getnum (PointPotential_init A pos tol) "pos" = ret (default 0 pos).
Proof. attr_lookup. Qed.

Lemma PointPotential_A A pos tol :
  getnum (PointPotential_init A pos tol) "A" = ret A.
Proof. attr_lookup. Qed.

Lemma PointPotential_epsilon A pos tol :
  getnum (PointPotential_init A pos tol) "epsilon" = ret (default (1 / 10000) tol).
Proof. attr_lookup. Qed.

Lemma PointPotential_no_tolerance A pos tol :
  getnum (PointPotential_init A pos tol) "tolerance" = raise AttributeError.
Proof. attr_lookup. Qed.

Lemma StepPotential_farr_eval (A : R) (pos : option R) (x : list R) :
  f (StepPotential_init A pos) (Array x)
  = ret (Array (map (fun xi => if Rgeb xi (default 0 pos) then A else 0) x)).
Proof.
  unfold f, _farr. cbn [cls StepPotential_init Potential_init setattr]. unfold StepPotential_farr.
  rewrite StepPotential_pos, bind_ret_l, StepPotential_A, bind_ret_l.
  rewrite <- (length_map (fun xi => Rgeb xi (default 0 pos)) x).
  rewrite np_mask_set_zeros, map_map. reflexivity.
Qed.

(** C5, as the code has it: the array evaluation of a step potential returns
    the amplitude at every coordinate at or beyond the step position and
    zero at every coordinate left of it, and emits no warning. *)
Theorem StepPotential_farr_right (A : R) (pos : option R) (x : list R) :
  exists res,
    f (StepPotential_init A pos) (Array x) = ([], Ok (Array res)) /\
    length res = length x /\
    forall i xi, x !! i = Some xi ->
      (default 0 pos <= xi -> res !! i = Some A) /\
      (xi < default 0 pos -> res !! i = Some 0).
Proof.
  eexists. split; [apply StepPotential_farr_eval |].
  split; [apply length_map |].
  intros i xi Hi. rewrite list_lookup_fmap, Hi. cbn. unfold Rgeb. split; intros H.
  - rewrite Rleb_true by exact H. reflexivity.
  - rewrite Rleb_false by exact H. reflexivity.
Qed.

(** The step of height 1 at 0 on the grid [-1, 1]. *)
Lemma step_at_origin_on_two_points :
  exists res,
    f (StepPotential_init 1 (Some 0)) (Array [-1; 1]) = ([], Ok (Array res)) /\
    res !! 0%nat = Some 0 /\ res !! 1%nat = Some 1.
Proof.
  destruct (StepPotential_farr_right 1 (Some 0) [-1; 1]) as (res & Hres & _ & Hpt).
  exists res. split; [exact Hres |]. split.
  - apply (Hpt 0%nat (-1)); [reflexivity | cbn; lra].
  - apply (Hpt 1%nat 1); [reflexivity | cbn; lra].
Defined.

(** C5, as the claim has it (amplitude left of the step, zero at and beyond
    it), fails for the step of height 1 at 0 on the grid [-1, 1]. *)
Lemma StepPotential_farr_not_left :
  ~ (forall res,
       f (StepPotential_init 1 (Some 0)) (Array [-1; 1]) = ([], Ok (Array res)) ->
       forall i xi, [-1; 1] !! i = Some xi ->
         (xi < 0 -> res !! i = Some 1) /\ (0 <= xi -> res !! i = Some 0)).
Proof.
  intros Hclaim.
  assert (Heval : f (StepPotential_init 1 (Some 0)) (Array [-1; 1])
                  = ([], Ok (Array [0; 1]))).
  { rewrite StepPotential_farr_eval. cbn [map].
    cbv [default from_option Datatypes.id]. Rdecide. reflexivity. }
  destruct (Hclaim _ Heval 0%nat (-1) eq_refl) as [Hleft _].
  assert (Hlt : -1 < 0) by lra. apply Hleft in Hlt. cbn in Hlt.
  injection Hlt as Hlt. lra.
Qed.

(** C10: the scalar evaluation of a point potential always raises
    [AttributeError]: [_fx] reads [self.tolerance], the constructor stored
    the tolerance as [self.epsilon]. *)
Theorem PointPotential_fx_raises (A : R) (pos tolerance : option R) (x : R) :
  f (PointPotential_init A pos tolerance) (Scalar x) = ([], Raise AttributeError).
Proof.
  unfold f, _fx. cbn [cls PointPotential_init Potential_init setattr]. unfold PointPotential_fx.
  rewrite PointPotential_pos, bind_ret_l, PointPotential_no_tolerance.
  reflexivity.
Qed.

(** C9: on a non-empty coordinate array that lies entirely to the right or
    entirely to the left of the position, the array evaluation of a point
    potential warns once and returns the zero array of the same length. *)
Theorem PointPotential_farr_outside (A : R) (pos tolerance : option R) (x : list R) :
  x <> [] ->
  Forall (fun xi => default 0 pos < xi) x \/ Forall (fun xi => xi < default 0 pos) x ->
  f (PointPotential_init A pos tolerance) (Array x)
  = ([ScaleMissesPotential], Ok (Array (zeros (length x)))).
Proof.
  intros Hne Hout.
  unfold f, _farr. cbn [cls PointPotential_init Potential_init setattr]. unfold PointPotential_farr.
  destruct (py_min_spec x Hne) as (mn & -> & Hmn & _).
  destruct (py_max_spec x Hne) as (mx & -> & Hmx & _).
  rewrite PointPotential_pos, !bind_ret_l.
  rewrite Forall_forall in Hout. rewrite Forall_forall in Hout.
  destruct Hout as [Hright | Hleft].
  - unfold Rgtb. rewrite Rltb_true by (apply Hright, list_elem_of_In, Hmn).
    rewrite bind_ret_l. reflexivity.
  - unfold Rgtb. rewrite Rltb_false.
    + rewrite !bind_ret_l. rewrite Rltb_true by (apply Hleft, list_elem_of_In, Hmx).
      reflexivity.
    + left. apply Hleft, list_elem_of_In, Hmn.
Qed.

(** The position 5 lies right of the grid [0, 1, 2]. *)
Lemma point_right_of_three_points :
  f (PointPotential_init 1 (Some 5) None) (Array [0; 1; 2])
  = ([ScaleMissesPotential], Ok (Array [0; 0; 0])).
Proof.
  apply (PointPotential_farr_outside 1 (Some 5) None [0; 1; 2]).
  - discriminate.
  - right. cbn. repeat constructor; lra.
Defined.

(** C8 at a negative position: the point potential of amplitude 1 at -1,
    evaluated on the grid [-2, -1, 0] that contains -1, warns that the
    closest coordinate is outside of the tolerance and returns zeros. *)
Theorem PointPotential_farr_negative_aligned :
  f (PointPotential_init 1 (Some (-1)) None) (Array [-2; -1; 0])
  = ([OutsideTolerance (-1) (-1) (1 / 10000)], Ok (Array [0; 0; 0])).
Proof.
  unfold f, _farr. cbn [cls PointPotential_init Potential_init setattr]. unfold PointPotential_farr.
  rewrite PointPotential_pos, PointPotential_epsilon, PointPotential_A.
  cbn [py_min py_max fold_left map length]; cbv [default from_option Datatypes.id].
  Rdecide. rewrite !bind_ret_l. cbv beta. Rdecide.
  change (np_where_first [false; true; false]) with (@ret nat 1%nat).
  rewrite !bind_ret_l. cbv beta.
  change (np_item [-2; -1; 0] 1) with (ret (-1)).
  rewrite !bind_ret_l. cbv beta. Rdecide.
  reflexivity.
Qed.
End potentials_facts.

Section point_aligned.
Import potentials.

Lemma first_index_spec (cond : list bool) :
  In true cond ->
  exists idx, first_index cond = Some idx /\ cond !! idx = Some true.
Proof.
  induction cond as [|b cond IH]; [intros [] |].
  intros Hin. destruct b.
  - exists 0%nat. split; reflexivity.
  - destruct Hin as [Hin|Hin]; [discriminate |].
    destruct (IH Hin) as (idx & Hidx & Hlook).
    exists (S idx). cbn [first_index]. rewrite Hidx. split; [reflexivity | exact Hlook].
Qed.

(** The array evaluation of a point potential whose position is one of the
    coordinates: the closest coordinate is the position itself, and the
    tolerance test compares [abs(pos)] with [abs(pos + epsilon)]. *)
Lemma PointPotential_farr_aligned (A : R) (pos tolerance : option R) (x : list R) :
  let p := default 0 pos in
  let eps := default (1 / 10000) tolerance in
  In p x ->
  exists idx,
    x !! idx = Some p /\
    f (PointPotential_init A pos tolerance) (Array x)
    = if Rgtb (Rabs p) (Rabs (p + eps))
      then ([OutsideTolerance p p eps], Ok (Array (zeros (length x))))
      else ([], Ok (Array (<[idx := A]> (zeros (length x))))).
Proof.
  intros p eps Hin.
  assert (Hne : x <> []) by (intros ->; destruct Hin).
  destruct (py_min_spec x Hne) as (mn & Hmin & _ & Hmn).
  destruct (py_max_spec x Hne) as (mx & Hmax & _ & Hmx).
  rewrite Forall_forall in Hmn, Hmx.
  apply list_elem_of_In in Hin.
  specialize (Hmn p Hin). specialize (Hmx p Hin).
  set (shiftx := map (fun xi => Rabs (xi - p)) x).
  assert (Hzero : shiftx <> []) by (unfold shiftx; destruct x; [congruence | discriminate]).
  destruct (py_min_spec shiftx Hzero) as (ms & Hms & Hms_in & Hms_le).
  assert (Hms0 : ms = 0).
  { rewrite Forall_forall in Hms_le.
    assert (H0 : Rabs (p - p) ∈ shiftx)
      by (apply list_elem_of_In, (in_map (fun xi => Rabs (xi - p))), list_elem_of_In, Hin).
    specialize (Hms_le _ H0). rewrite Rminus_diag, Rabs_R0 in Hms_le.
    unfold shiftx in Hms_in. apply in_map_iff in Hms_in as (xi & <- & _).
    pose proof (Rabs_pos (xi - p)). lra. }
  subst ms.
  destruct (first_index_spec (map (fun s => Reqb s 0) shiftx)) as (idx & Hidx & Hlook).
  { apply in_map_iff. exists 0. split; [apply Reqb_true; reflexivity |].
    unfold shiftx. apply in_map_iff. exists p.
    split; [rewrite Rminus_diag; apply Rabs_R0 | apply list_elem_of_In; exact Hin]. }
  assert (Hx : x !! idx = Some p).
  { unfold shiftx in Hlook. rewrite !list_lookup_fmap in Hlook.
    destruct (x !! idx) as [xi|]; [| discriminate]. cbn in Hlook.
    injection Hlook as Hlook. unfold Reqb in Hlook.
    destruct (Req_dec_T (Rabs (xi - p)) 0) as [Hab|]; [| discriminate].
    f_equal. destruct (Req_dec xi p) as [|Hneq]; [assumption |].
    apply Rminus_eq_contra in Hneq. apply Rabs_no_R0 in Hneq. contradiction. }
  exists idx. split; [exact Hx |].
  unfold f, _farr. cbn [cls PointPotential_init Potential_init setattr].
  unfold PointPotential_farr.
  rewrite PointPotential_pos, PointPotential_epsilon, PointPotential_A.
  fold p eps. rewrite Hmin, Hmax, ?bind_ret_l.
  unfold Rgtb at 1. rewrite (Rltb_false p mn) by exact Hmn. rewrite ?bind_ret_l.
  rewrite (Rltb_false mx p) by exact Hmx.
  fold shiftx. rewrite Hms, ?bind_ret_l. unfold np_where_first. rewrite Hidx.
  rewrite ?bind_ret_l. unfold np_item. rewrite Hx, ?bind_ret_l.
  destruct (Rgtb (Rabs p) (Rabs (p + eps))).
  - reflexivity.
  - unfold np_setitem. apply lookup_lt_Some in Hx.
    rewrite length_zeros, (proj2 (Nat.ltb_lt _ _) Hx), !bind_ret_l. reflexivity.
Qed.

(** X8: at a non-negative position (and a non-negative tolerance) that is
    one of the coordinates, the aligned coordinate receives the amplitude,
    every other coordinate is zero, and nothing is reported. *)
Lemma PointPotential_farr_aligned_nonneg (A : R) (pos tolerance : option R) (x : list R) :
  let p := default 0 pos in
  let eps := default (1 / 10000) tolerance in
  In p x -> 0 <= p -> 0 <= eps ->
  exists idx,
    x !! idx = Some p /\
    f (PointPotential_init A pos tolerance) (Array x)
    = ([], Ok (Array (<[idx := A]> (zeros (length x))))).
Proof.
  intros p eps Hin Hp Heps.
  destruct (PointPotential_farr_aligned A pos tolerance x Hin) as (idx & Hx & Hf).
  exists idx. split; [exact Hx |]. rewrite Hf. fold p eps.
  unfold Rgtb. rewrite Rltb_false; [reflexivity |].
  rewrite !Rabs_pos_eq by lra. lra.
Qed.

(** X9: at a position below [-epsilon/2] that is one of the coordinates,
    the aligned coordinate is reported as outside of the tolerance and the
    zero array is returned. *)
Lemma PointPotential_farr_aligned_below_zero (A : R) (pos tolerance : option R) (x : list R) :
  let p := default 0 pos in
  let eps := default (1 / 10000) tolerance in
  In p x -> 0 < eps -> p < - (eps / 2) ->
  f (PointPotential_init A pos tolerance) (Array x)
  = ([OutsideTolerance p p eps], Ok (Array (zeros (length x)))).
Proof.
  intros p eps Hin Heps Hp.
  destruct (PointPotential_farr_aligned A pos tolerance x Hin) as (idx & Hx & Hf).
  rewrite Hf. fold p eps. unfold Rgtb. rewrite Rltb_true; [reflexivity |].
  unfold Rabs. destruct (Rcase_abs p), (Rcase_abs (p + eps)); lra.
Qed.
End point_aligned.

(** ** particle.py *)
Section particle_facts.
Import particle.

(** C6 at its failing input: with [k0] left out (and the default mass) the
    constructor raises [TypeError], whatever the centre and the spread: the
    energy is computed from the argument [k0], which is [None], and not from
    [self.k0]. *)
Theorem Particle_init_default_k0_raises (x0 sigma : R) :
  Particle_init x0 sigma None default_m = ([], Raise TypeError).
Proof.
  unfold Particle_init, default_m.
  rewrite py_div_nonzero by lra. rewrite bind_ret_l. reflexivity.
Qed.

(** No mass makes the construction succeed when [k0] is left out. *)
Lemma Particle_init_default_k0_never_returns (x0 sigma m : R) (ws : list warning)
    (self : Particle) :
  Particle_init x0 sigma None m <> (ws, Ok self).
Proof.
  unfold Particle_init, py_div.
  destruct (Req_dec_T m 0); [discriminate |].
  rewrite bind_ret_l. discriminate.
Qed.

(** With a wavenumber, a non-zero mass and a non-zero spread the
    constructor returns, and the energy is the documented one. *)
Lemma Particle_init_returns (x0 sigma k m : R) :
  m <> 0 -> sigma <> 0 ->
  Particle_init x0 sigma (Some k) m
  = ret {| particle.x0 := x0; particle.m := m; particle.sigma := sigma;
           particle.k0 := k;
           E := hbar ^ 2 / 2 / m * (k ^ 2 + 1 / 2 / sigma ^ 2) |}.
Proof.
  intros Hm Hs. unfold Particle_init.
  rewrite py_div_nonzero by exact Hm. rewrite bind_ret_l. cbn [py_sqr_opt].
  rewrite bind_ret_l, py_div_nonzero by (apply pow_nonzero; exact Hs).
  rewrite bind_ret_l. reflexivity.
Qed.

End particle_facts.

Section construction.
Import potentials simulation.

Lemma np_iadd_length (V : list R) (r : pyarg) (ws : list warning) (V' : list R) :
  np_iadd V r = (ws, Ok V') -> length V' = length V.
Proof.
  destruct r as [y|b]; cbn [np_iadd].
  - intros [= _ <-]. apply length_map.
  - unfold np_imap2. intros H.
    apply bind_Ok_inv in H as (ws1 & b' & ws2 & Hb & [= _ <-] & _).
    apply np_broadcast_to_length in Hb. rewrite length_zip_with. lia.
Qed.

Lemma evalPotentials_loop_length (scale : list R) (pots : list object) :
  forall (V : list R) (ws : list warning) (V' : list R),
    evalPotentials_loop V scale pots = (ws, Ok V') -> length V' = length V.
Proof.
  induction pots as [|pot pots IH]; intros V ws V'; cbn [evalPotentials_loop].
  - intros [= _ <-]. reflexivity.
  - intros H.
    apply bind_Ok_inv in H as (ws1 & r & ws2 & _ & H & _).
    apply bind_Ok_inv in H as (ws3 & V1 & ws4 & Hadd & H & _).
    apply IH in H. apply np_iadd_length in Hadd. congruence.
Qed.

(** [ceil] of an integer. *)
Lemma Rceil_IZR (z : Z) : Rceil (IZR z) = z.
Proof.
  unfold Rceil.
  assert (H : (- z + 1)%Z = up (- IZR z)).
  { apply tech_up; rewrite plus_IZR, opp_IZR; lra. }
  rewrite <- H. lia.
Qed.

Lemma Rceil_spec (r : R) (k : Z) : IZR k - 1 < r <= IZR k -> Rceil r = k.
Proof.
  intros [H1 H2]. unfold Rceil.
  assert (H : (- k + 1)%Z = up (- r)).
  { apply tech_up; rewrite plus_IZR, opp_IZR; lra. }
  rewrite <- H. lia.
Qed.

(** The number of points of [np.arange(0, N*dx, dx)]. *)
Lemma default_grid_quotient (n : nat) (dx : R) :
  binary64 dx -> dx <> 0 -> (Z.of_nat n <= 2 ^ 51)%Z ->
  let q := fl (fl (fl (INR n * dx) - 0) / dx) in
  Rceil q = Z.of_nat n \/ Rceil q = (Z.of_nat n + 1)%Z.
Proof.
  intros Hb Hdx Hn q. unfold q. clear q.
  rewrite Rminus_0_r, fl_idem.
  destruct n as [|n'].
  { cbn [INR]. rewrite Rmult_0_l, fl_0. unfold Rdiv. rewrite Rmult_0_l, fl_0.
    left. apply Rceil_spec. change (Z.of_nat 0) with 0%Z. lra. }
  set (n := S n') in *.
  assert (Hn1 : 1 <= INR n) by (unfold n; rewrite S_INR; pose proof (pos_INR n'); lra).
  assert (Hn2 : INR n <= IZR (2 ^ 51)) by (rewrite INR_IZR_INZ; apply IZR_le; exact Hn).
  pose proof (fl_multiple (Z.of_nat n) dx Hb) as Hp.
  rewrite <- INR_IZR_INZ in Hp.
  set (u := powerRZ 2 (-53)) in *.
  assert (Hu : u * IZR (2 ^ 53) = 1).
  { unfold u. rewrite <- powerRZ2_nonneg by lia. exact (powerRZ2_cancel 53). }
  assert (Hu0 : 0 < u) by apply powerRZ2_pos.
  set (q' := fl (INR n * dx) / dx).
  assert (Hq' : Rabs (q' - INR n) <= u * INR n).
  { unfold q'. replace (fl (INR n * dx) / dx - INR n)
      with ((fl (INR n * dx) - INR n * dx) / dx) by (field; exact Hdx).
    unfold Rdiv. rewrite Rabs_mult, Rabs_inv.
    rewrite Rabs_mult in Hp. assert (0 < Rabs dx) by (apply Rabs_pos_lt; exact Hdx).
    apply Rmult_le_reg_r with (Rabs dx); [assumption |].
    rewrite Rmult_assoc, Rinv_l by lra. rewrite (Rabs_pos_eq (INR n)) in Hp by lra.
    lra. }
  apply Rabs_le_inv in Hq'.
  assert (Hu1 : u <= / 4).
  { change 4 with (IZR 4). replace (2 ^ 53)%Z with (4 * 2 ^ 51)%Z in Hu by lia.
    rewrite mult_IZR in Hu. assert (1 <= IZR (2 ^ 51)) by (apply IZR_le; lia). nra. }
  assert (Hq0 : / 2 <= q') by nra.
  assert (Hq'0 : q' <> 0) by lra.
  assert (Hnorm : (-1074 <= mag q' - 53)%Z).
  { destruct (mag_spec q' Hq'0) as [_ H].
    destruct (Z_le_gt_dec 0 (mag q')) as [? | Hneg]; [lia |].
    pose proof (powerRZ2_le (mag q') (-1) ltac:(lia)) as Hle.
    replace (powerRZ 2 (-1)) with (/ 2) in Hle by (simpl; rewrite Rmult_1_r; reflexivity).
    rewrite Rabs_pos_eq in H by lra. lra. }
  pose proof (fl_rel_error q' Hq'0 Hnorm) as Hq. fold u in Hq.
  rewrite (Rabs_pos_eq q') in Hq by lra.
  apply Rabs_le_inv in Hq.
  assert (H4 : 4 * u * INR n <= 1).
  { replace (2 ^ 53)%Z with (4 * 2 ^ 51)%Z in Hu by lia. rewrite mult_IZR in Hu.
    nra. }
  assert (Hlo : INR n - 1 < fl q') by nra.
  assert (Hhi : fl q' < INR n + 1) by nra.
  rewrite INR_IZR_INZ in Hlo, Hhi.
  destruct (Rle_lt_dec (fl q') (IZR (Z.of_nat n))) as [Hle | Hgt].
  - left. apply Rceil_spec. lra.
  - right. apply Rceil_spec. rewrite plus_IZR. lra.
Qed.

Lemma np_arange_length (start stop step : R) (ws : list warning) (a : list R) :
  np_arange start stop step = (ws, Ok a) ->
  length a = Z.to_nat (Rceil (fl (fl (stop - start) / step))).
Proof.
  unfold np_arange. destruct (Req_dec_T step 0); [discriminate |].
  intros [= _ <-]. rewrite length_map, length_seq. reflexivity.
Qed.

(** What a successful construction has computed. *)
Lemma Simulation_init_inv (particle : particle.Particle) (pots : list object)
    (n : nat) (dx : R) (xlims : option (R * R)) (T : option Z) (dt : option R)
    (ws : list warning) (self : Simulation) :
  Simulation_init particle pots n dx xlims T dt = (ws, Ok self) ->
  dx <> 0 /\
  N self = n /\ simulation.dx self = dx /\ simulation.dt self = dt /\
  p self = particle /\
  length (V self) = n /\
  length (scale self)
  = Z.to_nat (Rceil (fl (fl match xlims with
                            | None => fl (INR n * dx) - 0
                            | Some (lo, hi) => hi - lo
                            end / dx))).
Proof.
  unfold Simulation_init. intros H.
  apply bind_Ok_inv in H as (ws1 & sc & ws2 & Hsc & H & _).
  apply bind_Ok_inv in H as (ws3 & V0 & ws4 & HV & [= _ <-] & _).
  cbn [N V scale simulation.dx simulation.dt p].
  assert (Hdx : dx <> 0)
    by (unfold np_arange in Hsc; destruct (Req_dec_T dx 0); [discriminate | assumption]).
  repeat (split; [first [exact Hdx | reflexivity] |]). split.
  - apply evalPotentials_loop_length in HV. rewrite HV. apply length_zeros.
  - apply np_arange_length in Hsc. rewrite Hsc.
    destruct xlims as [[lo hi]|]; reflexivity.
Qed.



(** A constructed simulation whose grid fits its field, around a particle
    of non-zero mass, and either with a time step or with at least one grid
    point, is one on which [simulate] gets past its set-up. *)
Lemma Simulation_init_runnable (particle : particle.Particle) (pots : list object)
    (n : nat) (dx : R) (xlims : option (R * R)) (T : option Z) (dt : option R)
    (ws : list warning) (self : Simulation) :
  Simulation_init particle pots n dx xlims T dt = (ws, Ok self) ->
  length (scale self) = n \/ length (scale self) = 1%nat ->
  particle.m particle <> 0 ->
  (dt = None -> n <> 0%nat) ->
  runnable self.
Proof.
  intros H Hscale Hm Hn.
  apply Simulation_init_inv in H as (Hdx & HN & Edx & Edt & Ep & HV & _).
  unfold runnable. rewrite HN, Edx, Edt, Ep.
  split; [exact HV |]. split; [exact Hscale |]. split; [| exact Hn].
  apply Rmult_integral_contrapositive_currified; [exact Hm |].
  apply pow_nonzero. exact Hdx.
Qed.

End construction.

(** ** One pass of the update equations *)
Section stepping.
Import simulation.

Variables (n : nat) (c1 : R) (c2V : list R).

Lemma laplacian_ok (a : list R) :
  length a = n ->
  exists l, laplacian a (seq 1 (n - 2)) (seq 2 (n - 2)) (seq 0 (n - 2)) = ret l /\
            length l = (n - 2)%nat.
Proof.
  intros Ha. unfold laplacian.
  destruct (np_take_ok a (seq 2 (n - 2))) as (a2 & -> & H2);
    [rewrite Ha; apply seq_in_range; lia | rewrite bind_ret_l].
  destruct (np_take_ok a (seq 1 (n - 2))) as (a1 & -> & H1);
    [rewrite Ha; apply seq_in_range; lia | rewrite bind_ret_l].
  rewrite length_seq in H1, H2.
  rewrite np_map2_same by (rewrite length_map; lia). rewrite bind_ret_l.
  destruct (np_take_ok a (seq 0 (n - 2))) as (a3 & -> & H3);
    [rewrite Ha; apply seq_in_range; lia | rewrite bind_ret_l].
  rewrite length_seq in H3.
  rewrite np_map2_same by (rewrite length_zip_with, length_map; lia).
  eexists. split; [reflexivity |].
  rewrite !length_zip_with, length_map. lia.
Qed.

Lemma assign_row_same (a : psi) (s : slice) (v : list R) :
  length v = length (row a s) -> assign_row a s v = ret (set_row a s v).
Proof.
  intros H. unfold assign_row. rewrite np_broadcast_to_same by exact H.
  rewrite bind_ret_l. reflexivity.
Qed.

(** One pass of the body on buffers of shape [(3, n)]: it does not raise
    and keeps the shapes; the rotation leaves the old present rows in the
    past rows and the new future rows in the present rows; and at every
    index that is not interior the new future value is the old one changed
    by the potential term alone (the stencil is scattered into the interior
    indices only). *)
Lemma step_spec (st : state) :
  length c2V = n ->
  state_shape n st ->
  exists st',
    step n c1 c2V st = ret st' /\
    state_shape n st' /\
    present (psi_r st') = future (psi_r st') /\
    present (psi_i st') = future (psi_i st') /\
    past (psi_r st') = present (psi_r st) /\
    past (psi_i st') = present (psi_i st) /\
    forall b, b ∉ seq 1 (n - 2) ->
      future (psi_i st') !! b
      = zip_with Rminus (future (psi_i st))
                 (zip_with Rmult c2V (present (psi_r st))) !! b /\
      future (psi_r st') !! b
      = zip_with Rplus (future (psi_r st))
                 (zip_with Rmult c2V (present (psi_i st))) !! b.
Proof.
  intros c2V_shape [(Hra & Hrp & Hrf) (Hia & Hip & Hif)].
  unfold step. cbv zeta. cbn [row set_row past present future].
  assert (Hidx : Forall (fun i => (i < n)%nat) (seq 1 (n - 2)))
    by (apply seq_in_range; lia).
  (* the imaginary part *)
  destruct (np_take_ok (past (psi_i st)) (seq 1 (n - 2))) as (pa & -> & Hpa);
    [rewrite Hia; exact Hidx | rewrite bind_ret_l].
  destruct (laplacian_ok (present (psi_r st)) Hrp) as (lap & -> & Hlap).
  rewrite bind_ret_l. rewrite length_seq in Hpa.
  rewrite np_map2_same by (rewrite length_map; lia). rewrite bind_ret_l.
  destruct (np_put_ok (future (psi_i st)) (zip_with Rplus pa (map (Rmult c1) lap))
              (seq 1 (n - 2))) as (fi & -> & Hfi & Hfi_frame);
    [rewrite Hif; exact Hidx
    | rewrite length_zip_with, length_map, length_seq; lia
    | rewrite bind_ret_l].
  rewrite np_map2_same by lia. rewrite bind_ret_l.
  rewrite np_imap2_same by (rewrite length_zip_with; lia). rewrite bind_ret_l.
  (* the real part *)
  destruct (np_take_ok (past (psi_r st)) (seq 1 (n - 2))) as (pa' & -> & Hpa');
    [rewrite Hra; exact Hidx | rewrite bind_ret_l].
  destruct (laplacian_ok (present (psi_i st)) Hip) as (lap' & -> & Hlap').
  rewrite bind_ret_l. rewrite length_seq in Hpa'.
  rewrite np_map2_same by (rewrite length_map; lia). rewrite bind_ret_l.
  destruct (np_put_ok (future (psi_r st)) (zip_with Rminus pa' (map (Rmult c1) lap'))
              (seq 1 (n - 2))) as (fr & -> & Hfr & Hfr_frame);
    [rewrite Hrf; exact Hidx
    | rewrite length_zip_with, length_map, length_seq; lia
    | rewrite bind_ret_l].
  rewrite np_map2_same by lia. rewrite bind_ret_l.
  rewrite np_imap2_same by (rewrite length_zip_with; lia). rewrite bind_ret_l.
  (* the rotation *)
  rewrite assign_row_same by (cbn [row past]; lia).
  rewrite bind_ret_l. cbn [set_row past present future].
  rewrite assign_row_same
    by (cbn [row present]; rewrite !length_zip_with; lia).
  rewrite bind_ret_l. cbn [set_row past present future].
  rewrite assign_row_same by (cbn [row past]; lia).
  rewrite bind_ret_l. cbn [set_row past present future].
  rewrite assign_row_same
    by (cbn [row present]; rewrite !length_zip_with; lia).
  rewrite bind_ret_l. cbn [set_row past present future].
  eexists. split; [reflexivity |]. cbn [psi_r psi_i past present future].
  split; [| repeat (split; [reflexivity |])].
  - unfold state_shape, has_shape. cbn [psi_r psi_i past present future].
    rewrite !length_zip_with. lia.
  - intros b Hb. rewrite !lookup_zip_with.
    rewrite (Hfi_frame b Hb), (Hfr_frame b Hb). split; reflexivity.
Qed.

Lemma sample_same (st : state) :
  state_shape n st ->
  sample st
  = ret {| prob := zip_with Rplus (map (fun v => v ^ 2) (present (psi_r st)))
                                  (map (fun v => v ^ 2) (present (psi_i st)));
           real := present (psi_r st);
           imag := present (psi_i st) |}.
Proof.
  intros [(_ & Hrp & _) (_ & Hip & _)]. unfold sample. cbn [row].
  rewrite np_map2_same by (rewrite !length_map; lia).
  rewrite bind_ret_l. reflexivity.
Qed.

(** The loop, for an invariant [Inv] of the buffers that the body keeps
    and a property [Q] of the dictionary sampled after the body: it runs
    to the end, yields one dictionary for every [t] that [deltaT] divides,
    and every dictionary has [Q]. *)
Lemma loop_spec (Inv : state -> Prop) (Q : snapshot -> Prop) (deltaT : Z) :
  deltaT <> 0%Z ->
  (forall st, Inv st ->
     exists st', step n c1 c2V st = ret st' /\ Inv st' /\
                 exists s, sample st' = ret s /\ Q s) ->
  forall (ts : list Z) (st : state), Inv st ->
    exists snaps,
      loop n c1 c2V deltaT ts st = ret snaps /\
      Forall Q snaps /\
      length snaps = length (filter (fun t => (t mod deltaT)%Z = 0%Z) ts).
Proof.
  intros Hd Hbody ts. induction ts as [|t ts IH]; intros st Hst; cbn [loop].
  - exists []. repeat split; constructor.
  - destruct (Hbody st Hst) as (st' & -> & Hst' & s & Hs & HQ).
    rewrite bind_ret_l. unfold py_mod.
    rewrite (proj2 (Z.eqb_neq _ _) Hd), bind_ret_l.
    destruct (IH st' Hst') as (rest & Hrest & Hall & Hlen).
    rewrite filter_cons.
    destruct (Z.eqb_spec (t mod deltaT) 0) as [Hdiv|Hndiv].
    + rewrite Hs, bind_ret_l, Hrest, bind_ret_l.
      exists (s :: rest). split; [reflexivity |]. split; [constructor; assumption |].
      rewrite decide_True by exact Hdiv. cbn. rewrite Hlen. reflexivity.
    + exists rest. split; [exact Hrest |]. split; [exact Hall |].
      rewrite decide_False by exact Hndiv. exact Hlen.
Qed.

End stepping.

(** The gather and the scatter on a run of consecutive indices. *)
Lemma np_take_seq (a : list R) (m : nat) : forall s : nat,
  (s + m <= length a)%nat -> np_take a (seq s m) = ret (take m (drop s a)).
Proof.
  induction m as [|m IH]; intros s Hs; cbn [seq np_take].
  - reflexivity.
  - destruct (lookup_lt_is_Some_2 a s) as [v Hv]; [lia |].
    rewrite Hv, IH by lia. rewrite bind_ret_l.
    rewrite (drop_S a v s Hv). reflexivity.
Qed.

Lemma np_put_loop_seq (m : nat) : forall (s : nat) (a vals : list R),
  length vals = m -> (s + m <= length a)%nat ->
  np_put_loop a (seq s m) vals = ret (take s a ++ vals ++ drop (s + m) a).
Proof.
  induction m as [|m IH]; intros s a vals Hlen Hs; cbn [seq np_put_loop].
  - destruct vals; [| discriminate]. cbn [app].
    rewrite Nat.add_0_r, take_drop. reflexivity.
  - destruct vals as [|v vals]; [discriminate |].
    rewrite (proj2 (Nat.ltb_lt s (length a))) by lia.
    rewrite IH by (rewrite ?length_insert; cbn in Hlen; lia).
    unfold ret. do 2 f_equal.
    rewrite take_S_r with (x := v) by (apply list_lookup_insert_eq; lia).
    rewrite take_insert_ge by lia.
    rewrite drop_insert_lt by lia.
    replace (s + S m)%nat with (S s + m)%nat by lia.
    rewrite <- app_assoc. reflexivity.
Qed.

Section update_equations.
Import simulation.

(** The discrete Laplacian at the interior index [1 + j]. *)
Lemma laplacian_lookup (a : list R) (n j : nat) (am a0 ap : R) :
  length a = n -> (j < n - 2)%nat ->
  a !! j = Some am -> a !! (1 + j)%nat = Some a0 -> a !! (2 + j)%nat = Some ap ->
  exists l, laplacian a (seq 1 (n - 2)) (seq 2 (n - 2)) (seq 0 (n - 2)) = ret l /\
            length l = (n - 2)%nat /\ l !! j = Some (ap - 2 * a0 + am).
Proof.
  intros Ha Hj Hm H0 Hp. unfold laplacian.
  rewrite !np_take_seq by lia. rewrite !bind_ret_l.
  rewrite np_map2_same by (rewrite length_map, !length_take, !length_drop; lia).
  rewrite !bind_ret_l.
  rewrite np_map2_same
    by (rewrite length_zip_with, length_map, !length_take, !length_drop; lia).
  eexists. split; [reflexivity |]. split.
  - rewrite !length_zip_with, length_map, !length_take, !length_drop. lia.
  - rewrite !lookup_zip_with, list_lookup_fmap, !lookup_take_lt, !lookup_drop by lia.
    rewrite Hp, H0. cbn [Nat.add]. rewrite Hm. reflexivity.
Qed.

(** The scattered row at an interior index. *)
Lemma np_put_seq_lookup (a vals : list R) (m j : nat) (v : R) :
  length vals = m -> (1 + m <= length a)%nat -> vals !! j = Some v ->
  exists r, np_put a (seq 1 m) vals = ret r /\ length r = length a /\
            r !! (1 + j)%nat = Some v.
Proof.
  intros Hlen Hm Hv. unfold np_put.
  rewrite np_broadcast_to_same by (rewrite length_seq; exact Hlen).
  rewrite bind_ret_l, np_put_loop_seq by assumption.
  eexists. split; [reflexivity |].
  assert (Hj : (j < m)%nat) by (rewrite <- Hlen; eapply lookup_lt_Some; exact Hv).
  split.
  - rewrite !length_app, length_take, length_drop. lia.
  - rewrite lookup_app_r by (rewrite length_take; lia).
    rewrite length_take, lookup_app_l by lia.
    replace (1 + j - 1 `min` length a)%nat with j by lia. exact Hv.
Qed.

(** X23, the update equations: at every interior index [k = 1 + j] the new
    present values are
    [imag_past[k] + c1*(real[k+1] - 2*real[k] + real[k-1]) - c2V[k]*real[k]]
    and
    [real_past[k] - c1*(imag[k+1] - 2*imag[k] + imag[k-1]) + c2V[k]*imag[k]]. *)
Lemma step_update_equations (n : nat) (c1 : R) (c2V : list R) (st : state)
    (j : nat) (v ra rm r0 rp ia im i0 ip : R) :
  length c2V = n -> state_shape n st -> (j < n - 2)%nat ->
  c2V !! (1 + j)%nat = Some v ->
  past (psi_r st) !! (1 + j)%nat = Some ra ->
  present (psi_r st) !! j = Some rm ->
  present (psi_r st) !! (1 + j)%nat = Some r0 ->
  present (psi_r st) !! (2 + j)%nat = Some rp ->
  past (psi_i st) !! (1 + j)%nat = Some ia ->
  present (psi_i st) !! j = Some im ->
  present (psi_i st) !! (1 + j)%nat = Some i0 ->
  present (psi_i st) !! (2 + j)%nat = Some ip ->
  exists st',
    step n c1 c2V st = ret st' /\
    present (psi_i st') !! (1 + j)%nat
      = Some (ia + c1 * (rp - 2 * r0 + rm) - v * r0) /\
    present (psi_r st') !! (1 + j)%nat
      = Some (ra - c1 * (ip - 2 * i0 + im) + v * i0).
Proof.
  intros Hc2V [(Hra & Hrp & Hrf) (Hia & Hip & Hif)] Hj
    Hv Era Erm Er0 Erp Eia Eim Ei0 Eip.
  unfold step. cbv zeta. cbn [row set_row past present future].
  (* the imaginary part *)
  rewrite np_take_seq by lia. rewrite bind_ret_l.
  destruct (laplacian_lookup (present (psi_r st)) n j rm r0 rp)
    as (lap & -> & Hlap & Elap); try assumption.
  rewrite bind_ret_l.
  rewrite np_map2_same by (rewrite length_map, length_take, length_drop; lia).
  rewrite bind_ret_l.
  destruct (np_put_seq_lookup (future (psi_i st))
              (zip_with Rplus (take (n - 2) (drop 1 (past (psi_i st))))
                 (map (Rmult c1) lap))
              (n - 2) j (ia + c1 * (rp - 2 * r0 + rm)))
    as (fi & -> & Hfi & Efi).
  { rewrite length_zip_with, length_map, length_take, length_drop. lia. }
  { lia. }
  { rewrite lookup_zip_with, list_lookup_fmap, lookup_take_lt, lookup_drop by lia.
    rewrite Eia, Elap. reflexivity. }
  rewrite bind_ret_l, np_map2_same by lia. rewrite bind_ret_l.
  rewrite np_imap2_same by (rewrite length_zip_with; lia). rewrite bind_ret_l.
  (* the real part *)
  rewrite np_take_seq by lia. rewrite bind_ret_l.
  destruct (laplacian_lookup (present (psi_i st)) n j im i0 ip)
    as (lap' & -> & Hlap' & Elap'); try assumption.
  rewrite bind_ret_l.
  rewrite np_map2_same by (rewrite length_map, length_take, length_drop; lia).
  rewrite bind_ret_l.
  destruct (np_put_seq_lookup (future (psi_r st))
              (zip_with Rminus (take (n - 2) (drop 1 (past (psi_r st))))
                 (map (Rmult c1) lap'))
              (n - 2) j (ra - c1 * (ip - 2 * i0 + im)))
    as (fr & -> & Hfr & Efr).
  { rewrite length_zip_with, length_map, length_take, length_drop. lia. }
  { lia. }
  { rewrite lookup_zip_with, list_lookup_fmap, lookup_take_lt, lookup_drop by lia.
    rewrite Era, Elap'. reflexivity. }
  rewrite bind_ret_l, np_map2_same by lia. rewrite bind_ret_l.
  rewrite np_imap2_same by (rewrite length_zip_with; lia). rewrite bind_ret_l.
  (* the rotation *)
  rewrite assign_row_same by (cbn [row past]; lia).
  rewrite bind_ret_l. cbn [set_row past present future].
  rewrite assign_row_same by (cbn [row present]; rewrite !length_zip_with; lia).
  rewrite bind_ret_l. cbn [set_row past present future].
  rewrite assign_row_same by (cbn [row past]; lia).
  rewrite bind_ret_l. cbn [set_row past present future].
  rewrite assign_row_same by (cbn [row present]; rewrite !length_zip_with; lia).
  rewrite bind_ret_l. cbn [set_row past present future].
  eexists. split; [reflexivity |]. cbn [psi_r psi_i present].
  rewrite !lookup_zip_with, Efi, Efr, Hv, Er0, Ei0. split; reflexivity.
Qed.
End update_equations.

(** The number of multiples of [d] among [0, ..., T]. *)
Lemma count_multiples (d : Z) (k : nat) :
  (0 < d)%Z ->
  length (filter (fun t => (t mod d)%Z = 0%Z) (simulation.py_range (Z.of_nat k + 1)))
  = Z.to_nat (Z.of_nat k / d + 1).
Proof.
  intros Hd. unfold simulation.py_range.
  replace (Z.to_nat (Z.of_nat k + 1)) with (S k) by lia.
  induction k as [|k IH].
  - cbn. rewrite decide_True by (apply Z.mod_0_l; lia).
    rewrite Z.div_0_l by lia. reflexivity.
  - rewrite seq_S, map_app, filter_app, length_app, IH. cbn [map Nat.add].
    rewrite filter_cons, filter_nil.
    assert (0 <= Z.of_nat k / d)%Z by (apply Z.div_pos; lia).
    destruct (decide ((Z.of_nat (S k) mod d)%Z = 0%Z)) as [Hdiv|Hndiv]; cbn [length].
    + assert (Z.of_nat (S k) / d = Z.of_nat k / d + 1)%Z
        by (Z.to_euclidean_division_equations; nia).
      lia.
    + assert (Z.of_nat (S k) / d = Z.of_nat k / d)%Z
        by (Z.to_euclidean_division_equations; nia).
      lia.
Qed.

(** ** The set-up of [simulate] *)
Section setup.
Import simulation.

Lemma time_step_ok (self : Simulation) :
  runnable self -> exists dt, time_step self = ret dt.
Proof.
  intros (HV & _ & Hden & Hdt). unfold time_step.
  destruct (dt self) as [d|]; [exists d; reflexivity |].
  rewrite py_div_nonzero by exact Hden. rewrite bind_ret_l.
  destruct (py_max_spec (V self)) as (vmax & -> & _).
  { intros HVnil. rewrite HVnil in HV. cbn in HV. apply Hdt; [reflexivity | congruence]. }
  rewrite bind_ret_l. eexists. reflexivity.
Qed.

Lemma constants_ok (self : Simulation) (dt : R) :
  runnable self ->
  exists c1 c2V, constants self dt = ret (c1, c2V) /\ length c2V = N self /\
                 c2V = map (Rmult (2 * dt / particle.hbar)) (V self).
Proof.
  intros (HV & _ & Hden & _). unfold constants.
  rewrite py_div_nonzero by exact Hden. rewrite bind_ret_l.
  do 2 eexists. split; [reflexivity |]. split; [| reflexivity].
  rewrite length_map. exact HV.
Qed.

(** The buffers after the set-up: past and present hold the (broadcast)
    wave packet divided by [sqrt P], the future rows hold [0 / sqrt P]. *)
Lemma initial_state_ok (self : Simulation) :
  length (scale self) = N self \/ length (scale self) = 1%nat ->
  let P := dx self * np_sum (particle.prob (p self) (scale self) 0) in
  exists re im,
    initial_state self
    = ret ({| psi_r := psi_idiv {| past := re; present := re;
                                   future := zeros (N self) |} (sqrt P);
              psi_i := psi_idiv {| past := im; present := im;
                                   future := zeros (N self) |} (sqrt P) |},
           map (fun v => v / P) (particle.prob (p self) (scale self) 0)) /\
    length re = N self /\ length im = N self /\
    (length (scale self) = N self ->
     re = particle.real (p self) (scale self) 0 /\
     im = particle.imag (p self) (scale self) 0).
Proof.
  intros Hscale P.
  destruct (np_broadcast_to_ok (N self) (particle.real (p self) (scale self) 0))
    as (re & Ere & Hre & Hre_eq);
    [unfold particle.real; rewrite length_map; exact Hscale |].
  destruct (np_broadcast_to_ok (N self) (particle.imag (p self) (scale self) 0))
    as (im & Eim & Him & Him_eq);
    [unfold particle.imag; rewrite length_map; exact Hscale |].
  exists re, im. split; [| split; [exact Hre | split; [exact Him |]]].
  - unfold initial_state, assign_row. cbv zeta.
    cbn [row set_row psi_zeros past present future].
    rewrite !length_zeros, Ere, Eim, !bind_ret_l.
    cbn [row set_row past present future].
    rewrite !length_zeros, Ere, Eim, !bind_ret_l. reflexivity.
  - intros H. split; [apply Hre_eq | apply Him_eq];
      unfold particle.real, particle.imag; rewrite length_map; exact H.
Qed.

(** [simulate] is its loop, started on the buffers of the set-up. *)
Lemma simulate_unfold (self : Simulation) (deltaT : Z) :
  runnable self ->
  exists dt st0 psi_p c1 c2V,
    time_step self = ret dt /\
    initial_state self = ret (st0, psi_p) /\
    constants self dt = ret (c1, c2V) /\
    state_shape (N self) st0 /\
    length c2V = N self /\
    c2V = map (Rmult (2 * dt / particle.hbar)) (V self) /\
    (exists nrm, future (psi_r st0) = map (fun v => v / nrm) (zeros (N self)) /\
                 future (psi_i st0) = map (fun v => v / nrm) (zeros (N self))) /\
    simulate self deltaT
    = loop (N self) c1 c2V deltaT (py_range (T self + 1)) st0.
Proof.
  intros Hrun.
  destruct (time_step_ok self Hrun) as (dt & Hdt).
  destruct (initial_state_ok self (proj1 (proj2 Hrun))) as (re & im & Hinit & Hre & Him & _).
  destruct (constants_ok self dt Hrun) as (c1 & c2V & Hcs & Hlen & Hc2V).
  do 5 eexists.
  split; [exact Hdt |]. split; [exact Hinit |]. split; [exact Hcs |].
  split; [| split; [exact Hlen | split; [exact Hc2V | split]]].
  - unfold state_shape, has_shape, psi_idiv. cbn [psi_r psi_i past present future].
    rewrite !length_map, length_zeros. auto.
  - eexists. cbn [psi_r psi_i psi_idiv future]. split; reflexivity.
  - unfold simulate. rewrite Hdt, bind_ret_l, Hinit, bind_ret_l, Hcs, bind_ret_l.
    reflexivity.
Qed.

End setup.

Section simulate_facts.
Import simulation.

(** ** Sums of arrays *)

Lemma np_sum_div (l : list R) (c : R) :
  np_sum (map (fun v => v / c) l) = np_sum l / c.
Proof.
  induction l as [|a l IH]; cbn.
  - unfold Rdiv. ring.
  - fold (np_sum (map (fun v => v / c) l)). fold (np_sum l). rewrite IH.
    unfold Rdiv. ring.
Qed.

Lemma squares_div (a b : list R) (c : R) :
  zip_with Rplus (map (fun v => v ^ 2) (map (fun v => v / c) a))
                 (map (fun v => v ^ 2) (map (fun v => v / c) b))
  = map (fun v => v / c ^ 2)
        (zip_with Rplus (map (fun v => v ^ 2) a) (map (fun v => v ^ 2) b)).
Proof.
  revert b. induction a as [|x a IH]; intros [|y b]; cbn [zip_with map];
    try reflexivity.
  rewrite IH. f_equal. unfold Rdiv. rewrite <- pow_inv. ring.
Qed.

(** C3: when the grid has [N] points and the initial probability mass
    [P = dx * sum(prob(x, 0))] is positive, the set-up of [simulate]
    succeeds, leaves the wave packet divided by [sqrt P] in the present
    rows and [prob / P] in [psi_p], and [dx] times the sum of the squares of
    the present rows is exactly 1 (and so is [dx] times the sum of [psi_p]). *)
Theorem initial_state_normalized (self : Simulation) :
  length (scale self) = N self ->
  0 < dx self * np_sum (particle.prob (p self) (scale self) 0) ->
  let P := dx self * np_sum (particle.prob (p self) (scale self) 0) in
  exists st psi_p,
    initial_state self = ([], Ok (st, psi_p)) /\
    present (psi_r st)
      = map (fun v => v / sqrt P) (particle.real (p self) (scale self) 0) /\
    present (psi_i st)
      = map (fun v => v / sqrt P) (particle.imag (p self) (scale self) 0) /\
    psi_p = map (fun v => v / P) (particle.prob (p self) (scale self) 0) /\
    dx self * np_sum (zip_with Rplus (map (fun v => v ^ 2) (present (psi_r st)))
                                     (map (fun v => v ^ 2) (present (psi_i st)))) = 1 /\
    dx self * np_sum psi_p = 1.
Proof.
  intros Hscale HP P.
  destruct (initial_state_ok self (or_introl Hscale))
    as (re & im & Hinit & _ & _ & Heq).
  destruct (Heq Hscale) as [-> ->]. fold P in Hinit.
  do 2 eexists. split; [exact Hinit |].
  cbn [psi_r psi_i psi_idiv present].
  split; [reflexivity |]. split; [reflexivity |]. split; [reflexivity |].
  assert (Hsq : sqrt P ^ 2 = P) by (apply pow2_sqrt; unfold P; lra).
  split.
  - rewrite squares_div, np_sum_div, Hsq.
    fold (particle.prob (p self) (scale self) 0).
    transitivity (P / P); [unfold P, Rdiv; ring | field; unfold P; lra].
  - rewrite np_sum_div.
    transitivity (P / P); [unfold P, Rdiv; ring | field; unfold P; lra].
Qed.

(** ** The sequence of snapshots *)

Lemma loop_runs (n : nat) (c1 : R) (c2V : list R) (deltaT : Z) (ts : list Z) (st : state) :
  length c2V = n -> deltaT <> 0%Z -> state_shape n st ->
  exists snaps,
    loop n c1 c2V deltaT ts st = ret snaps /\
    Forall (fun s => length (prob s) = n /\ length (real s) = n /\ length (imag s) = n) snaps /\
    length snaps = length (filter (fun t => (t mod deltaT)%Z = 0%Z) ts).
Proof.
  intros Hc2V Hd Hst.
  apply (loop_spec n c1 c2V (state_shape n)); [exact Hd | | exact Hst].
  clear st Hst. intros st Hst.
  destruct (step_spec n c1 c2V st Hc2V Hst) as (st' & Hstep & Hst' & _).
  exists st'. split; [exact Hstep |]. split; [exact Hst' |].
  eexists. split; [apply (sample_same n); exact Hst' |].
  destruct Hst' as [(_ & Hrp & _) (_ & Hip & _)]. cbn [prob real imag].
  rewrite length_zip_with, !length_map. lia.
Qed.

(** C4: for a total step count [T >= 0] and a sampling interval
    [deltaT > 0], the generator of a runnable simulation yields exactly
    [T / deltaT + 1] dictionaries (floor division), and the three arrays of
    each have length [N]. *)
Theorem simulate_snapshot_count (self : Simulation) (deltaT : Z) :
  runnable self -> (0 <= T self)%Z -> (0 < deltaT)%Z ->
  exists snaps,
    simulate self deltaT = ([], Ok snaps) /\
    Z.of_nat (length snaps) = (T self / deltaT + 1)%Z /\
    Forall (fun s => length (prob s) = N self /\
                     length (real s) = N self /\
                     length (imag s) = N self) snaps.
Proof.
  intros Hrun HT Hd.
  destruct (simulate_unfold self deltaT Hrun)
    as (dt & st0 & psi_p & c1 & c2V & _ & _ & _ & Hst0 & Hc2V & _ & _ & ->).
  destruct (loop_runs (N self) c1 c2V deltaT (py_range (T self + 1)) st0)
    as (snaps & Hloop & Hall & Hlen); [exact Hc2V | lia | exact Hst0 |].
  exists snaps. split; [exact Hloop |]. split; [| exact Hall].
  rewrite Hlen. rewrite <- (Z2Nat.id (T self)) by exact HT.
  rewrite count_multiples by exact Hd.
  rewrite Z2Nat.id; [reflexivity |].
  assert (0 <= Z.of_nat (Z.to_nat (T self)) / deltaT)%Z by (apply Z.div_pos; lia).
  lia.
Qed.

End simulate_facts.

Section simulate_more.
Import simulation.

Lemma py_range_head (T : Z) :
  (0 <= T)%Z -> py_range (T + 1) = 0%Z :: map Z.of_nat (seq 1 (Z.to_nat T)).
Proof.
  intros H. unfold py_range.
  replace (Z.to_nat (T + 1)) with (S (Z.to_nat T)) by lia. reflexivity.
Qed.

(** The first dictionary is sampled after the first pass through the
    update equations. *)
Lemma simulate_head (self : Simulation) (deltaT : Z) :
  runnable self -> (0 <= T self)%Z -> deltaT <> 0%Z ->
  exists dt c1 c2V st0 psi_p st1 s rest,
    time_step self = ret dt /\
    constants self dt = ret (c1, c2V) /\
    initial_state self = ret (st0, psi_p) /\
    step (N self) c1 c2V st0 = ret st1 /\
    sample st1 = ret s /\
    simulate self deltaT = ret (s :: rest).
Proof.
  intros Hrun HT Hd.
  destruct (simulate_unfold self deltaT Hrun)
    as (dt & st0 & psi_p & c1 & c2V & Hdt & Hinit & Hcs & Hst0 & Hc2V & _ & _ & ->).
  destruct (step_spec (N self) c1 c2V st0 Hc2V Hst0) as (st1 & Hstep & Hst1 & _).
  destruct (loop_runs (N self) c1 c2V deltaT (map Z.of_nat (seq 1 (Z.to_nat (T self)))) st1)
    as (rest & Hrest & _); [exact Hc2V | exact Hd | exact Hst1 |].
  exists dt, c1, c2V, st0, psi_p, st1. eexists. exists rest.
  split; [exact Hdt |]. split; [exact Hcs |]. split; [exact Hinit |].
  split; [exact Hstep |]. split; [apply (sample_same (N self)); exact Hst1 |].
  rewrite py_range_head by exact HT. cbn [loop].
  rewrite Hstep, bind_ret_l. unfold py_mod.
  rewrite (proj2 (Z.eqb_neq _ _) Hd), bind_ret_l, Zmod_0_l. cbn [Z.eqb].
  rewrite (sample_same (N self)) by exact Hst1.
  rewrite bind_ret_l, Hrest, bind_ret_l. reflexivity.
Qed.

(** With a field that vanishes at the two ends and future rows that are
    zero there, every sampled present row is zero at the two ends. *)
Lemma boundary_loop (n : nat) (c1 : R) (c2V : list R) (deltaT : Z) (ts : list Z)
    (st : state) :
  length c2V = n -> deltaT <> 0%Z ->
  c2V !! 0%nat = Some 0 -> c2V !! (n - 1)%nat = Some 0 ->
  state_shape n st ->
  (forall b, b = 0%nat \/ b = (n - 1)%nat ->
     future (psi_r st) !! b = Some 0 /\ future (psi_i st) !! b = Some 0) ->
  exists snaps,
    loop n c1 c2V deltaT ts st = ret snaps /\
    Forall (fun s => real s !! 0%nat = Some 0 /\ imag s !! 0%nat = Some 0 /\
                     real s !! (n - 1)%nat = Some 0 /\
                     imag s !! (n - 1)%nat = Some 0) snaps.
Proof.
  intros Hc2V Hd Hv0 Hvn Hshape Hfut.
  destruct (loop_spec n c1 c2V
              (fun st => state_shape n st /\
                 forall b, b = 0%nat \/ b = (n - 1)%nat ->
                   future (psi_r st) !! b = Some 0 /\ future (psi_i st) !! b = Some 0)
              (fun s => real s !! 0%nat = Some 0 /\ imag s !! 0%nat = Some 0 /\
                        real s !! (n - 1)%nat = Some 0 /\
                        imag s !! (n - 1)%nat = Some 0)
              deltaT Hd) with (ts := ts) (st := st) as (snaps & Hloop & Hall & _).
  - clear st Hshape Hfut. intros st [Hshape Hfut].
    destruct (step_spec n c1 c2V st Hc2V Hshape)
      as (st' & Hstep & Hshape' & Hpr & Hpi & _ & _ & Hframe).
    assert (Hfut' : forall b, b = 0%nat \/ b = (n - 1)%nat ->
              future (psi_r st') !! b = Some 0 /\ future (psi_i st') !! b = Some 0).
    { intros b Hb.
      assert (Hvb : c2V !! b = Some 0) by (destruct Hb as [-> | ->]; assumption).
      assert (Hbn : (b < n)%nat)
        by (rewrite <- Hc2V; apply lookup_lt_is_Some_1; eauto).
      destruct Hshape as [(_ & Hrp & _) (_ & Hip & _)].
      destruct (lookup_lt_is_Some_2 (present (psi_r st)) b) as [xr Hxr]; [lia |].
      destruct (lookup_lt_is_Some_2 (present (psi_i st)) b) as [xi Hxi]; [lia |].
      destruct (Hframe b) as [Hfi Hfr].
      { intros Hin. apply elem_of_seq in Hin. lia. }
      destruct (Hfut b Hb) as [Hr0 Hi0].
      rewrite Hfr, Hfi, !lookup_zip_with, Hr0, Hi0, Hvb, Hxr, Hxi. cbn.
      split; f_equal; ring. }
    exists st'. split; [exact Hstep |]. split; [split; assumption |].
    eexists. split; [apply (sample_same n); exact Hshape' |].
    cbn [real imag]. rewrite Hpr, Hpi.
    destruct (Hfut' 0%nat (or_introl eq_refl)) as [? ?].
    destruct (Hfut' (n - 1)%nat (or_intror eq_refl)) as [? ?]. auto.
  - split; assumption.
  - exists snaps. split; assumption.
Qed.
End simulate_more.

Section claims.
Import simulation.

(** C1, as the code has it: the first dictionary of a runnable simulation
    with [T >= 0] is sampled after one pass through the update equations
    and the rotation.  Its real and imaginary arrays are the present rows
    of the buffers that [step] makes of the normalised initial buffers, and
    its probability array is the sum of their squares. *)
Theorem first_snapshot_after_one_step (self : Simulation) (deltaT : Z) :
  runnable self -> (0 <= T self)%Z -> deltaT <> 0%Z ->
  exists dt c1 c2V st0 psi_p st1 s rest,
    time_step self = ([], Ok dt) /\
    constants self dt = ([], Ok (c1, c2V)) /\
    initial_state self = ([], Ok (st0, psi_p)) /\
    step (N self) c1 c2V st0 = ([], Ok st1) /\
    real s = present (psi_r st1) /\
    imag s = present (psi_i st1) /\
    prob s = zip_with Rplus (map (fun v => v ^ 2) (present (psi_r st1)))
                            (map (fun v => v ^ 2) (present (psi_i st1))) /\
    simulate self deltaT = ([], Ok (s :: rest)).
Proof.
  intros Hrun HT Hd.
  destruct (simulate_head self deltaT Hrun HT Hd)
    as (dt & c1 & c2V & st0 & psi_p & st1 & s & rest
        & Hdt & Hcs & Hinit & Hstep & Hs & Hsim).
  exists dt, c1, c2V, st0, psi_p, st1, s, rest.
  repeat (split; [assumption |]).
  destruct (simulate_unfold self deltaT Hrun)
    as (dt' & st0' & psi_p' & c1' & c2V' & Hdt' & Hinit' & Hcs' & Hst0 & Hc2V & _).
  rewrite Hdt in Hdt'. injection Hdt' as <-.
  rewrite Hinit in Hinit'. injection Hinit' as <- <-.
  rewrite Hcs in Hcs'. injection Hcs' as <- <-.
  destruct (step_spec (N self) c1 c2V st0 Hc2V Hst0) as (st1' & Hstep' & Hst1 & _).
  rewrite Hstep in Hstep'. injection Hstep' as <-.
  rewrite (sample_same (N self)) in Hs by exact Hst1. injection Hs as <-.
  cbn [real imag prob]. auto.
Qed.

(** C2, as the code has it: on a runnable simulation with a positive
    initial mass and a field that is zero at the indices 0 and [N - 1], the
    real and imaginary arrays of every dictionary the generator yields
    (with [deltaT = 1]: the present rows after every step) are zero at the
    indices 0 and [N - 1]. *)
Theorem boundary_zero_in_every_snapshot (self : Simulation) (deltaT : Z) :
  runnable self ->
  0 < dx self * np_sum (particle.prob (p self) (scale self) 0) ->
  deltaT <> 0%Z ->
  V self !! 0%nat = Some 0 -> V self !! (N self - 1)%nat = Some 0 ->
  exists snaps,
    simulate self deltaT = ([], Ok snaps) /\
    Forall (fun s => real s !! 0%nat = Some 0 /\ imag s !! 0%nat = Some 0 /\
                     real s !! (N self - 1)%nat = Some 0 /\
                     imag s !! (N self - 1)%nat = Some 0) snaps.
Proof.
  intros Hrun _ Hd HV0 HVn.
  destruct (simulate_unfold self deltaT Hrun)
    as (dt & st0 & psi_p & c1 & c2V & _ & _ & _ & Hst0 & Hlen & Hc2V
        & (nrm & Hfr & Hfi) & ->).
  apply boundary_loop; try assumption.
  - rewrite Hc2V, list_lookup_fmap, HV0. cbn. f_equal. ring.
  - rewrite Hc2V, list_lookup_fmap, HVn. cbn. f_equal. ring.
  - intros b Hb.
    assert (Hbn : (b < N self)%nat).
    { destruct Hrun as (HV & _). rewrite <- HV.
      apply lookup_lt_is_Some_1. destruct Hb as [-> | ->]; eauto. }
    rewrite Hfr, Hfi, !list_lookup_fmap, lookup_zeros by exact Hbn. cbn.
    split; f_equal; unfold Rdiv; ring.
Qed.
End claims.

Section free_packet.
Import potentials simulation examples.
Import particle(Particle_init, envelope, x0, m, sigma, k0).

Lemma packet_constructed : Particle_init 1 1 (Some 0) 1 = ret packet.
Proof.
  unfold Particle_init.
  rewrite py_div_nonzero by lra. rewrite bind_ret_l. cbn [particle.py_sqr_opt].
  rewrite bind_ret_l. rewrite py_div_nonzero by lra. rewrite bind_ret_l.
  reflexivity.
Qed.

Lemma NullPotential_farr_eval (x : list R) :
  f NullPotential_init (Array x) = ret (Array (zeros (length x))).
Proof. reflexivity. Qed.

Lemma free3_constructed :
  Simulation_init packet [NullPotential_init] 3 1 None None None = ret free3.
Proof.
  unfold Simulation_init, np_arange.
  destruct (Req_dec_T 1 0) as [H|_]; [lra |].
  rewrite (fl_eq_IZR (INR 3 * 1) 3), (fl_eq_IZR (3 - 0) 3), (fl_eq_IZR (3 / 1) 3);
    [| first [cbn; lra | lia] ..].
  rewrite Rceil_IZR. rewrite bind_ret_l.
  unfold evalPotentials. cbn [evalPotentials_loop].
  rewrite NullPotential_farr_eval, bind_ret_l. cbn [np_iadd].
  rewrite np_imap2_same by reflexivity.
  rewrite !bind_ret_l. reflexivity.
Qed.

Lemma free3_runnable : runnable free3.
Proof.
  unfold runnable. cbn [free3 V N scale p m dx dt packet].
  split; [reflexivity |]. split; [left; reflexivity |].
  split; [lra | discriminate].
Qed.

Lemma free3_real :
  particle.real packet (scale free3) 0 = [exp (- (1 / 2)); 1; exp (- (1 / 2))].
Proof.
  unfold particle.real, envelope. cbn [free3 scale packet x0 sigma k0 map seq].
  rewrite !Rmult_0_l, cos_0, !Rmult_1_r.
  repeat (apply (f_equal2 cons); [| try reflexivity]).
  - f_equal. cbn. lra.
  - transitivity (exp 0); [f_equal; cbn; lra | apply exp_0].
  - f_equal. cbn. lra.
Qed.

Lemma free3_imag : particle.imag packet (scale free3) 0 = [0; 0; 0].
Proof.
  unfold particle.imag. cbn [free3 scale packet k0 map seq].
  rewrite !Rmult_0_l, sin_0, !Rmult_0_r. reflexivity.
Qed.

Lemma free3_mass :
  dx free3 * np_sum (particle.prob packet (scale free3) 0) = 1 + 2 * exp (- (1 / 2)) ^ 2.
Proof.
  unfold particle.prob. rewrite free3_real, free3_imag. cbn. lra.
Qed.

(** [exp(-1/2)] lies between 1/2 and 1. *)
Lemma exp_minus_half : 1 / 2 < exp (- (1 / 2)) < 1.
Proof.
  pose proof (exp_pos (1 / 2)) as Hpos.
  pose proof exp_le_3 as H3.
  replace 1 with (1 / 2 + 1 / 2) in H3 at 1 by lra. rewrite exp_plus in H3.
  pose proof (exp_ineq1 (1 / 2) ltac:(lra)) as Hlow.
  rewrite exp_Ropp.
  assert (Hhigh : exp (1 / 2) < 2) by nra.
  split.
  - apply Rmult_lt_reg_r with (exp (1 / 2)); [exact Hpos |].
    rewrite Rinv_l by lra. lra.
  - apply Rmult_lt_reg_r with (exp (1 / 2)); [exact Hpos |].
    rewrite Rinv_l by lra. lra.
Qed.
End free_packet.

Section free_packet_run.
Import potentials simulation examples.

Lemma step3 (c1 v0 v1 v2 ra0 ra1 ra2 rp0 rp1 rp2 rf0 rf1 rf2
             ia0 ia1 ia2 ip0 ip1 ip2 if0 if1 if2 : R) :
  step 3 c1 [v0; v1; v2]
    {| psi_r := {| past := [ra0; ra1; ra2]; present := [rp0; rp1; rp2];
                   future := [rf0; rf1; rf2] |};
       psi_i := {| past := [ia0; ia1; ia2]; present := [ip0; ip1; ip2];
                   future := [if0; if1; if2] |} |}
  = ret {| psi_r := {| past := [rp0; rp1; rp2];
                       present := [rf0 + v0 * ip0;
                                   ra1 - c1 * (ip2 - 2 * ip1 + ip0) + v1 * ip1;
                                   rf2 + v2 * ip2];
                       future := [rf0 + v0 * ip0;
                                  ra1 - c1 * (ip2 - 2 * ip1 + ip0) + v1 * ip1;
                                  rf2 + v2 * ip2] |};
           psi_i := {| past := [ip0; ip1; ip2];
                       present := [if0 - v0 * rp0;
                                   ia1 + c1 * (rp2 - 2 * rp1 + rp0) - v1 * rp1;
                                   if2 - v2 * rp2];
                       future := [if0 - v0 * rp0;
                                  ia1 + c1 * (rp2 - 2 * rp1 + rp0) - v1 * rp1;
                                  if2 - v2 * rp2] |} |}.
Proof. reflexivity. Qed.

Lemma free3_time_step :
  time_step free3
  = ret (particle.hbar / (2 * particle.hbar ^ 2 / (1 * 1 ^ 2) + (0 + 0))).
Proof.
  unfold time_step. cbn [free3 dt p dx V particle.m packet].
  rewrite py_div_nonzero by lra. rewrite bind_ret_l.
  cbn [zeros replicate zip_with py_max fold_left]. Rdecide.
  rewrite bind_ret_l. reflexivity.
Qed.

Lemma free3_first_snapshot (deltaT : Z) :
  deltaT <> 0%Z ->
  let q := exp (- (1 / 2)) in
  let nrm := sqrt (1 + 2 * q ^ 2) in
  exists st0 psi_p s rest,
    initial_state free3 = ret (st0, psi_p) /\
    present (psi_r st0) = [q / nrm; 1 / nrm; q / nrm] /\
    present (psi_i st0) = [0 / nrm; 0 / nrm; 0 / nrm] /\
    simulate free3 deltaT = ret (s :: rest) /\
    real s = [0; 1 / nrm; 0] /\
    imag s = [0; (q - 1) / nrm; 0] /\
    prob s = [0 ^ 2 + 0 ^ 2; (1 / nrm) ^ 2 + ((q - 1) / nrm) ^ 2; 0 ^ 2 + 0 ^ 2].
Proof.
  intros Hd q nrm.
  destruct (simulate_head free3 deltaT free3_runnable ltac:(cbn; lia) Hd)
    as (dt & c1 & c2V & st0 & psi_p & st1 & s & rest
        & Hdt & Hcs & Hinit & Hstep & Hs & Hsim).
  exists st0, psi_p, s, rest.
  (* the set-up *)
  destruct (initial_state_ok free3 (or_introl eq_refl))
    as (re & im & Hinit' & _ & _ & Heq).
  destruct (Heq eq_refl) as [-> ->]. clear Heq.
  change (p free3) with packet in Hinit'.
  rewrite free3_mass, free3_real, free3_imag in Hinit'. fold q nrm in Hinit'.
  rewrite Hinit' in Hinit. injection Hinit as <- <-.
  (* the constants *)
  rewrite free3_time_step in Hdt. injection Hdt as <-.
  unfold constants in Hcs. cbn [free3 p dx V particle.m packet] in Hcs.
  rewrite py_div_nonzero, bind_ret_l in Hcs by lra. injection Hcs as <- <-.
  unfold psi_idiv in Hstep.
  cbn [N free3 past present future zeros replicate zip_with map] in Hstep.
  rewrite step3 in Hstep. injection Hstep as <-.
  unfold sample in Hs. cbn [row psi_r psi_i present map] in Hs.
  rewrite np_map2_same, bind_ret_l in Hs by reflexivity. injection Hs as <-.
  assert (Hnrm : nrm <> 0).
  { unfold nrm. apply Rgt_not_eq, sqrt_lt_R0. pose proof (pow2_ge_0 q). lra. }
  split; [exact Hinit' |].
  split; [reflexivity |]. split; [reflexivity |].
  split; [exact Hsim |].
  unfold psi_idiv.
  cbn [zip_with prob real imag psi_r psi_i past present future map zeros replicate].
  unfold particle.hbar.
  repeat split; repeat (apply (f_equal2 cons); [| try reflexivity]);
    field; exact Hnrm.
Qed.
End free_packet_run.

Section examples_facts.
Import potentials simulation examples.

Lemma free3_mass_pos :
  0 < dx free3 * np_sum (particle.prob (p free3) (scale free3) 0).
Proof.
  change (p free3) with packet. rewrite free3_mass.
  pose proof (pow2_ge_0 (exp (- (1 / 2)))). lra.
Qed.

Lemma free3_field_ends :
  V free3 !! 0%nat = Some 0 /\ V free3 !! (N free3 - 1)%nat = Some 0.
Proof. split; cbn; f_equal; lra. Qed.

(** C1, as the claim has it, fails on the free packet on three grid points:
    the initial mass is positive, but the first dictionary does not hold
    the normalised initial present row, and [dx] times the sum of its
    probability array is not 1. *)
Lemma first_snapshot_not_initial :
  0 < dx free3 * np_sum (particle.prob (p free3) (scale free3) 0) /\
  exists st0 psi_p s rest,
    initial_state free3 = ([], Ok (st0, psi_p)) /\
    simulate free3 5 = ([], Ok (s :: rest)) /\
    real s <> present (psi_r st0) /\
    dx free3 * np_sum (prob s) <> 1.
Proof.
  split; [exact free3_mass_pos |].
  destruct (free3_first_snapshot 5 ltac:(discriminate))
    as (st0 & psi_p & s & rest & Hinit & Hpr & _ & Hsim & Hr & Hi & Hp).
  exists st0, psi_p, s, rest. split; [exact Hinit |]. split; [exact Hsim |].
  pose proof exp_minus_half as [Hq1 Hq2].
  set (q := exp (- (1 / 2))) in *. set (nrm := sqrt (1 + 2 * q ^ 2)) in *.
  assert (Hsq : nrm ^ 2 = 1 + 2 * q ^ 2)
    by (apply pow2_sqrt; pose proof (pow2_ge_0 q); lra).
  assert (Hpos : 0 < nrm)
    by (apply sqrt_lt_R0; pose proof (pow2_ge_0 q); lra).
  split.
  - rewrite Hr, Hpr. intros [= H0 _].
    assert (0 < q / nrm) by (apply Rdiv_lt_0_compat; lra). lra.
  - rewrite Hp. cbn [np_sum fold_right dx free3].
    replace (1 * (0 ^ 2 + 0 ^ 2 + ((1 / nrm) ^ 2 + ((q - 1) / nrm) ^ 2
                                   + (0 ^ 2 + 0 ^ 2 + 0))))
      with ((1 + (q - 1) ^ 2) / nrm ^ 2) by (field; lra).
    intros Hsum. rewrite Hsq in Hsum.
    apply (f_equal (fun v => v * (1 + 2 * q ^ 2))) in Hsum.
    unfold Rdiv in Hsum. rewrite Rmult_assoc, Rinv_l in Hsum by nra.
    nra.
Qed.

(** C2, as the claim has it, fails on the same run sampled at every step:
    after the first step the present real row is no longer what the
    normalisation left at the indices 0 and [N - 1] = 2. *)
Lemma boundary_not_fixed :
  exists st0 psi_p s rest,
    initial_state free3 = ([], Ok (st0, psi_p)) /\
    simulate free3 1 = ([], Ok (s :: rest)) /\
    real s !! 0%nat <> present (psi_r st0) !! 0%nat /\
    real s !! 2%nat <> present (psi_r st0) !! 2%nat.
Proof.
  destruct (free3_first_snapshot 1 ltac:(discriminate))
    as (st0 & psi_p & s & rest & Hinit & Hpr & _ & Hsim & Hr & _ & _).
  exists st0, psi_p, s, rest. split; [exact Hinit |]. split; [exact Hsim |].
  pose proof exp_minus_half as [Hq1 Hq2].
  set (q := exp (- (1 / 2))) in *. set (nrm := sqrt (1 + 2 * q ^ 2)) in *.
  assert (Hpos : 0 < nrm)
    by (apply sqrt_lt_R0; pose proof (pow2_ge_0 q); lra).
  assert (0 < q / nrm) by (apply Rdiv_lt_0_compat; lra).
  rewrite Hr, Hpr. cbn. split; intros [= H0]; lra.
Qed.



(** The literal [0.1] denotes the binary64 number [tenth]. *)
Lemma fl_one_tenth : fl (1 / 10) = tenth.
Proof.
  rewrite (fl_pos_eval (1 / 10) (-3) 7205759403792794).
  - pow2. unfold tenth. lra.
  - pow2. lra.
  - pow2. apply round_half_even_near. apply Rabs_def1; lra.
Qed.

(** [3 * 0.1] is rounded up to [0.30000000000000004] (a tie, resolved to the
    even significand), and the quotient of that by [0.1] is rounded to
    [3.0000000000000004]. *)
Lemma fl_three_tenths :
  fl (INR 3 * tenth) = 5404319552844596 / 18014398509481984.
Proof.
  assert (E : INR 3 * tenth = 10808639105689191 / 36028797018963968)
    by (unfold tenth; cbn; lra).
  rewrite E.
  rewrite (fl_pos_eval _ (-1) 5404319552844596).
  - pow2. lra.
  - pow2. lra.
  - pow2. rewrite (round_half_even_tie _ 5404319552844595); [reflexivity | lra].
Qed.

Lemma fl_three_tenths_by_tenth :
  fl (5404319552844596 / 18014398509481984 / tenth)
  = 6755399441055745 / 2251799813685248.
Proof.
  assert (E : 5404319552844596 / 18014398509481984 / tenth
              = 10808639105689192 / 3602879701896397)
    by (unfold tenth; lra).
  rewrite E.
  rewrite (fl_pos_eval _ 2 6755399441055745).
  - pow2. lra.
  - pow2. lra.
  - pow2. apply round_half_even_near. apply Rabs_def1; lra.
Qed.

(** [Simulation(packet, [], N=3, dx=0.1)] is constructed with a grid of
    four points beside a field of three values. *)
Lemma tenth_grid_constructed :
  exists self,
    Simulation_init packet [] 3 tenth None None None = ([], Ok self) /\
    N self = 3%nat /\ length (V self) = 3%nat /\ length (scale self) = 4%nat.
Proof.
  unfold Simulation_init, np_arange.
  destruct (Req_dec_T tenth 0) as [H|_]; [unfold tenth in H; lra |].
  assert (Hc : fl (5404319552844596 / 18014398509481984)
               = 5404319552844596 / 18014398509481984)
    by (rewrite <- fl_three_tenths; apply fl_idem).
  rewrite fl_three_tenths, Rminus_0_r, Hc, fl_three_tenths_by_tenth.
  rewrite (Rceil_spec _ 4) by lra.
  rewrite bind_ret_l.
  unfold evalPotentials. cbn [evalPotentials_loop]. rewrite bind_ret_l.
  eexists. split; [reflexivity |]. cbn [N V scale].
  repeat split; reflexivity.
Qed.

(** With a potential on that grid the construction raises: the contribution
    of four values cannot be added to the field of three. *)
Lemma tenth_grid_rejects_potential :
  Simulation_init packet [NullPotential_init] 3 tenth None None None
  = ([], Raise ValueError).
Proof.
  unfold Simulation_init, np_arange.
  destruct (Req_dec_T tenth 0) as [H|_]; [unfold tenth in H; lra |].
  assert (Hc : fl (5404319552844596 / 18014398509481984)
               = 5404319552844596 / 18014398509481984)
    by (rewrite <- fl_three_tenths; apply fl_idem).
  rewrite fl_three_tenths, Rminus_0_r, Hc, fl_three_tenths_by_tenth.
  rewrite (Rceil_spec _ 4) by lra.
  rewrite bind_ret_l.
  unfold evalPotentials. cbn [evalPotentials_loop].
  rewrite NullPotential_farr_eval, bind_ret_l. reflexivity.
Qed.


(** *** The packet on a grid of one point *)

Lemma one_point3_constructed :
  Simulation_init packet [NullPotential_init] 3 1 (Some (0, 1)) None None
  = ret one_point3.
Proof.
  unfold Simulation_init, np_arange.
  destruct (Req_dec_T 1 0) as [H|_]; [lra |].
  rewrite (fl_eq_IZR (1 - 0) 1), (fl_eq_IZR (1 / 1) 1); [| first [lra | lia] ..].
  rewrite Rceil_IZR. rewrite bind_ret_l.
  unfold evalPotentials. cbn [evalPotentials_loop].
  rewrite NullPotential_farr_eval, bind_ret_l. cbn [np_iadd].
  unfold np_imap2. change (Z.to_nat 1) with 1%nat. cbn [seq map length].
  change (zeros 1) with [0]. rewrite length_zeros, np_broadcast_to_one.
  rewrite !bind_ret_l. reflexivity.
Qed.

Lemma one_point3_runnable : runnable one_point3.
Proof.
  unfold runnable. cbn [one_point3 V N scale p particle.m dx dt packet].
  split; [reflexivity |]. split; [right; reflexivity |].
  split; [lra | discriminate].
Qed.

Lemma one_point3_real :
  particle.real packet (scale one_point3) 0 = [exp (- (1 / 2))].
Proof.
  unfold particle.real, particle.envelope.
  cbn [one_point3 scale packet particle.x0 particle.sigma particle.k0 map seq].
  rewrite !Rmult_0_l, cos_0, !Rmult_1_r. do 2 f_equal. cbn. lra.
Qed.

Lemma one_point3_imag : particle.imag packet (scale one_point3) 0 = [0].
Proof.
  unfold particle.imag. cbn [one_point3 scale packet particle.k0 map seq].
  rewrite !Rmult_0_l, sin_0, !Rmult_0_r. reflexivity.
Qed.

Lemma one_point3_mass :
  dx one_point3 * np_sum (particle.prob packet (scale one_point3) 0)
  = exp (- (1 / 2)) ^ 2.
Proof.
  unfold particle.prob. rewrite one_point3_real, one_point3_imag. cbn. lra.
Qed.

(** C3, as the claim has it, fails on
    [Simulation(packet, [NullPotential()], N=3, dx=1., xlims=(0, 1))], which
    is constructed and runs.  The grid is the single point 0, so the mass
    [P = exp(-1/2)^2] is positive and is the mass of one value; the rows of
    [N = 3] values are filled by broadcasting that value, and after the
    division by [sqrt P] the present rows are [1, 1, 1] and [0, 0, 0]: [dx]
    times the sum of their squares is 3. *)
Lemma one_point_grid_not_normalized :
  Simulation_init packet [NullPotential_init] 3 1 (Some (0, 1)) None None
  = ([], Ok one_point3) /\
  0 < dx one_point3 * np_sum (particle.prob (p one_point3) (scale one_point3) 0) /\
  (exists snaps, simulate one_point3 5 = ([], Ok snaps)) /\
  exists st psi_p,
    initial_state one_point3 = ([], Ok (st, psi_p)) /\
    present (psi_r st) = [1; 1; 1] /\
    present (psi_i st) = [0; 0; 0] /\
    dx one_point3
    * np_sum (zip_with Rplus (map (fun v => v ^ 2) (present (psi_r st)))
                             (map (fun v => v ^ 2) (present (psi_i st)))) = 3.
Proof.
  pose proof exp_minus_half as [Hq1 Hq2].
  split; [exact one_point3_constructed |].
  split.
  { change (p one_point3) with packet. rewrite one_point3_mass.
    apply pow_lt. lra. }
  split.
  { destruct (simulate_unfold one_point3 5 one_point3_runnable)
      as (dt' & st0 & psi_p & c1 & c2V & _ & _ & _ & Hst0 & Hc2V & _ & _ & ->).
    destruct (loop_runs (N one_point3) c1 c2V 5 (py_range (T one_point3 + 1)) st0)
      as (snaps & Hloop & _); [exact Hc2V | discriminate | exact Hst0 |].
    exists snaps. exact Hloop. }
  unfold initial_state, assign_row. cbv zeta.
  change (p one_point3) with packet.
  rewrite one_point3_mass, one_point3_real, one_point3_imag.
  cbn [row set_row psi_zeros past present future N one_point3].
  rewrite !length_zeros, !np_broadcast_to_one, !bind_ret_l.
  cbn [row set_row past present future].
  rewrite !length_zeros, !np_broadcast_to_one, !bind_ret_l.
  set (q := exp (- (1 / 2))) in *.
  assert (Hs : sqrt (q ^ 2) = q) by (apply sqrt_pow2; lra).
  do 2 eexists. split; [reflexivity |].
  unfold psi_idiv. cbn [psi_r psi_i present replicate map]. rewrite Hs.
  split; [| split].
  - repeat (apply (f_equal2 cons); [| try reflexivity]); field; lra.
  - repeat (apply (f_equal2 cons); [| try reflexivity]); field; lra.
  - cbn [zip_with map np_sum fold_right dx one_point3]. field. lra.
Qed.

(** *** The theorems above at the free packet on three grid points *)

(** The first of the four dictionaries sampled every fifth step. *)
Lemma free3_first_snapshot_is_a_step_ahead :
  exists dt c1 c2V st0 psi_p st1 s rest,
    time_step free3 = ([], Ok dt) /\
    constants free3 dt = ([], Ok (c1, c2V)) /\
    initial_state free3 = ([], Ok (st0, psi_p)) /\
    step (N free3) c1 c2V st0 = ([], Ok st1) /\
    real s = present (psi_r st1) /\
    imag s = present (psi_i st1) /\
    prob s = zip_with Rplus (map (fun v => v ^ 2) (present (psi_r st1)))
                            (map (fun v => v ^ 2) (present (psi_i st1))) /\
    simulate free3 5 = ([], Ok (s :: rest)).
Proof.
  apply (first_snapshot_after_one_step free3 5).
  - exact free3_runnable.
  - cbn. lia.
  - discriminate.
Defined.

(** The field is zero everywhere, so both ends are zero at every step. *)
Lemma free3_ends_stay_zero :
  exists snaps,
    simulate free3 1 = ([], Ok snaps) /\
    Forall (fun s => real s !! 0%nat = Some 0 /\ imag s !! 0%nat = Some 0 /\
                     real s !! 2%nat = Some 0 /\ imag s !! 2%nat = Some 0) snaps.
Proof.
  apply (boundary_zero_in_every_snapshot free3 1).
  - exact free3_runnable.
  - exact free3_mass_pos.
  - discriminate.
  - exact (proj1 free3_field_ends).
  - exact (proj2 free3_field_ends).
Defined.

(** The initial mass [1 + 2 exp(-1/2)^2] is positive. *)
Lemma free3_initial_mass_is_one :
  exists st psi_p,
    initial_state free3 = ([], Ok (st, psi_p)) /\
    dx free3 * np_sum (zip_with Rplus (map (fun v => v ^ 2) (present (psi_r st)))
                                      (map (fun v => v ^ 2) (present (psi_i st)))) = 1 /\
    dx free3 * np_sum psi_p = 1.
Proof.
  destruct (initial_state_normalized free3 eq_refl free3_mass_pos)
    as (st & psi_p & Hinit & _ & _ & _ & Hsum & Hp).
  exists st, psi_p. split; [exact Hinit |]. split; [exact Hsum | exact Hp].
Defined.

(** [T = 15] and [deltaT = 5]: the dictionaries of [t = 0, 5, 10, 15]. *)
Lemma free3_yields_four_snapshots :
  exists snaps,
    simulate free3 5 = ([], Ok snaps) /\
    Z.of_nat (length snaps) = 4%Z /\
    Forall (fun s => length (prob s) = 3%nat /\ length (real s) = 3%nat /\
                     length (imag s) = 3%nat) snaps.
Proof.
  apply (simulate_snapshot_count free3 5).
  - exact free3_runnable.
  - cbn. lia.
  - lia.
Defined.


End examples_facts.

(** * Further properties *)

(** ** potentials.py: the barrier, the two paths, shapes *)
Section more_potentials.
Import potentials.

Ltac attr_lookup' :=
  unfold getnum, getattr, NullPotential_init, PointPotential_init,
    BarrierPotential_init, StepPotential_init, Potential_init, setattr;
  cbn [attrs cls]; simplify_map_eq; reflexivity.

Lemma BarrierPotential_pos A width pos :
  getnum (BarrierPotential_init A width pos) "pos" = ret (default 0 pos).
Proof. attr_lookup'. Qed.

Lemma BarrierPotential_width A width pos :
  getnum (BarrierPotential_init A width pos) "width" = ret width.
Proof. attr_lookup'. Qed.

Lemma BarrierPotential_A A width pos :
  getnum (BarrierPotential_init A width pos) "A" = ret A.
Proof. attr_lookup'. Qed.

Lemma np_mask_set_map (g : R -> R) (h : R -> bool) (x : list R) (v : R) :
  np_mask_set (map g x) (map h x) v = map (fun xi => if h xi then v else g xi) x.
Proof. induction x as [|xi x IH]; cbn; [reflexivity | rewrite IH; reflexivity]. Qed.

Lemma zip_with_andb_map (p q : R -> bool) (x : list R) :
  zip_with andb (map p x) (map q x) = map (fun xi => p xi && q xi) x.
Proof. induction x as [|xi x IH]; cbn; [reflexivity | rewrite IH; reflexivity]. Qed.

Lemma zeros_as_map (x : list R) : zeros (length x) = map (fun _ => 0) x.
Proof. unfold zeros. induction x as [|xi x IH]; cbn; [reflexivity | rewrite IH; reflexivity]. Qed.

(** The two mask assignments of [BarrierPotential._farr], coordinate by
    coordinate. *)
Lemma BarrierPotential_farr_eval (A width : R) (pos : option R) (x : list R) :
  f (BarrierPotential_init A width pos) (Array x)
  = ret (Array (map (fun xi =>
                       if Rltb xi (default 0 pos) && Rgeb xi (default 0 pos - width)
                       then A
                       else if Rgeb xi (default 0 pos) && Rleb xi (default 0 pos + width)
                            then A else 0) x)).
Proof.
  unfold f, _farr. cbn [cls BarrierPotential_init Potential_init setattr].
  unfold BarrierPotential_farr.
  rewrite BarrierPotential_pos, BarrierPotential_width, BarrierPotential_A.
  rewrite !bind_ret_l.
  rewrite !zip_with_andb_map, zeros_as_map, !np_mask_set_map. reflexivity.
Qed.

(** X1: the array evaluation of a barrier of non-negative width returns the
    amplitude at every coordinate of the closed interval
    [[pos - width, pos + width]] and zero at every other coordinate, without
    a warning. *)
Theorem BarrierPotential_farr_interval (A width : R) (pos : option R) (x : list R) :
  0 <= width ->
  exists res,
    f (BarrierPotential_init A width pos) (Array x) = ([], Ok (Array res)) /\
    length res = length x /\
    forall i xi, x !! i = Some xi ->
      (default 0 pos - width <= xi <= default 0 pos + width -> res !! i = Some A) /\
      (xi < default 0 pos - width \/ default 0 pos + width < xi -> res !! i = Some 0).
Proof.
  intros Hw. eexists. split; [apply BarrierPotential_farr_eval |].
  split; [apply length_map |].
  intros i xi Hi. rewrite list_lookup_fmap, Hi. cbn [fmap option_fmap option_map].
  set (p := default 0 pos). unfold Rgeb, Rltb, Rleb.
  split; intros H;
    destruct (Rlt_dec xi p), (Rle_dec (p - width) xi), (Rle_dec p xi),
      (Rle_dec xi (p + width)); cbn [andb]; try reflexivity; lra.
Qed.

Lemma barrier_on_five_points :
  exists res,
    f (BarrierPotential_init 3 1 (Some 2)) (Array [0; 1; 2; 3; 4]) = ([], Ok (Array res)) /\
    res !! 0%nat = Some 0 /\ res !! 1%nat = Some 3 /\ res !! 3%nat = Some 3 /\
    res !! 4%nat = Some 0.
Proof.
  destruct (BarrierPotential_farr_interval 3 1 (Some 2) [0; 1; 2; 3; 4])
    as (res & Hres & _ & Hpt); [lra |].
  exists res. split; [exact Hres |].
  split; [apply (Hpt 0%nat 0); [reflexivity | cbn; lra] |].
  split; [apply (Hpt 1%nat 1); [reflexivity | cbn; lra] |].
  split; [apply (Hpt 3%nat 3); [reflexivity | cbn; lra] |].
  apply (Hpt 4%nat 4); [reflexivity | cbn; lra].
Defined.

(** X2: a barrier of negative width is zero everywhere: neither mask of the
    array evaluation selects a coordinate. *)
Theorem BarrierPotential_farr_negative_width (A width : R) (pos : option R) (x : list R) :
  width < 0 ->
  f (BarrierPotential_init A width pos) (Array x) = ([], Ok (Array (zeros (length x)))).
Proof.
  intros Hw. rewrite BarrierPotential_farr_eval, zeros_as_map.
  unfold ret. do 3 f_equal. apply map_ext. intros xi.
  set (p := default 0 pos). unfold Rgeb, Rltb, Rleb.
  destruct (Rlt_dec xi p), (Rle_dec (p - width) xi), (Rle_dec p xi),
    (Rle_dec xi (p + width)); cbn [andb]; try reflexivity; lra.
Qed.

Lemma barrier_of_width_minus_one :
  f (BarrierPotential_init 3 (-1) None) (Array [-1; 0; 1]) = ([], Ok (Array [0; 0; 0])).
Proof. apply (BarrierPotential_farr_negative_width 3 (-1) None [-1; 0; 1]). lra. Defined.

(** X3: for a barrier centred at 0 (the default position) with a
    non-negative width, the scalar path and the array path agree at every
    coordinate. *)
Theorem BarrierPotential_paths_agree_at_origin (A width x : R) :
  0 <= width ->
  exists v,
    f (BarrierPotential_init A width None) (Scalar x) = ([], Ok (Scalar v)) /\
    f (BarrierPotential_init A width None) (Array [x]) = ([], Ok (Array [v])).
Proof.
  intros Hw. rewrite BarrierPotential_farr_eval.
  unfold f, _fx. cbn [cls BarrierPotential_init Potential_init setattr].
  unfold BarrierPotential_fx.
  rewrite BarrierPotential_pos, BarrierPotential_width, BarrierPotential_A.
  rewrite !bind_ret_l. cbn [map]. cbv [default from_option Datatypes.id].
  unfold Rgeb, Rltb, Rleb.
  destruct (Rle_dec (Rabs x) (Rabs (0 + width))) as [Hin|Hout].
  - rewrite ?bind_ret_l. exists A. split; [reflexivity |].
    unfold Rabs in Hin.
    destruct (Rcase_abs x), (Rcase_abs (0 + width)),
      (Rlt_dec x 0), (Rle_dec (0 - width) x), (Rle_dec 0 x),
      (Rle_dec x (0 + width)); cbn [andb]; try reflexivity; lra.
  - exists 0. split; [reflexivity |].
    unfold Rabs in Hout.
    destruct (Rcase_abs x), (Rcase_abs (0 + width)),
      (Rlt_dec x 0), (Rle_dec (0 - width) x), (Rle_dec 0 x),
      (Rle_dec x (0 + width)); cbn [andb]; try reflexivity; lra.
Qed.

Lemma barrier_paths_agree_at_one_half :
  exists v,
    f (BarrierPotential_init 3 1 None) (Scalar (1 / 2)) = ([], Ok (Scalar v)) /\
    f (BarrierPotential_init 3 1 None) (Array [1 / 2]) = ([], Ok (Array [v])).
Proof. apply (BarrierPotential_paths_agree_at_origin 3 1 (1 / 2)). lra. Defined.

(** X4: the two paths of a step potential use opposite conventions: at
    every coordinate one of them returns the amplitude and the other one
    zero. *)
Theorem StepPotential_paths_complementary (A : R) (pos : option R) (x : R) :
  exists u w,
    f (StepPotential_init A pos) (Scalar x) = ([], Ok (Scalar u)) /\
    f (StepPotential_init A pos) (Array [x]) = ([], Ok (Array [w])) /\
    ((u = A /\ w = 0) \/ (u = 0 /\ w = A)).
Proof.
  rewrite StepPotential_farr_eval.
  unfold f, _fx. cbn [cls StepPotential_init Potential_init setattr].
  unfold StepPotential_fx. rewrite StepPotential_pos, StepPotential_A, bind_ret_l.
  cbn [map]. unfold Rgeb, Rltb, Rleb.
  destruct (Rlt_dec x (default 0 pos)), (Rle_dec (default 0 pos) x); try lra.
  - rewrite ?bind_ret_l. exists A, 0. auto.
  - exists 0, A. auto.
Qed.
End more_potentials.

Section potential_shapes.
Import potentials.

Lemma length_np_mask_set (a : list R) (mask : list bool) (v : R) :
  length (np_mask_set a mask v) = length a.
Proof.
  revert mask. induction a as [|x a IH]; intros [|b mask]; cbn; try reflexivity.
  rewrite IH. reflexivity.
Qed.

Lemma np_setitem_length (a : list R) (i : nat) (v : R) (ws : list warning) (r : list R) :
  np_setitem a i v = (ws, Ok r) -> length r = length a.
Proof.
  unfold np_setitem. destruct (Nat.ltb i (length a)); [| discriminate].
  intros [= _ <-]. apply length_insert.
Qed.

(** Peels the binds of a computation that is known to return. *)
Ltac peel H :=
  repeat match type of H with
         | bind _ _ = (_, Ok _) =>
             let ws1 := fresh "ws" in
             let a := fresh "a" in
             let ws2 := fresh "ws" in
             let H1 := fresh "Hc" in
             apply bind_Ok_inv in H as (ws1 & a & ws2 & H1 & H & _)
         | (if ?c then _ else _) = (_, Ok _) => destruct c
         end.

Lemma f_shape (self : object) (x r : pyarg) (ws : list warning) :
  f self x = (ws, Ok r) ->
  match x, r with
  | Array xs, Array res => length res = length xs
  | Scalar _, Scalar _ => True
  | _, _ => False
  end.
Proof.
  destruct x as [v|xs]; unfold f, _fx, _farr; destruct (cls self).
  - discriminate.
  - intros [= _ <-]. exact I.
  - unfold PointPotential_fx. intros H. peel H; injection H as _ <-; exact I.
  - unfold BarrierPotential_fx. intros H. peel H; injection H as _ <-; exact I.
  - unfold StepPotential_fx. intros H. peel H; injection H as _ <-; exact I.
  - discriminate.
  - intros [= _ <-]. apply length_zeros.
  - unfold PointPotential_farr. intros H. peel H;
      try (injection H as _ <-; apply length_zeros).
    injection H as _ <-.
    match goal with
    | Hs : np_setitem _ _ _ = _ |- _ => apply np_setitem_length in Hs; rewrite Hs
    end.
    apply length_zeros.
  - unfold BarrierPotential_farr. intros H. peel H. injection H as _ <-.
    rewrite !length_np_mask_set. apply length_zeros.
  - unfold StepPotential_farr. intros H. peel H. injection H as _ <-.
    rewrite length_np_mask_set. apply length_zeros.
Qed.



(** X6: on the empty array the free-particle, barrier and step potentials
    return the empty array, while the point potential raises [ValueError]
    (it takes the minimum of the coordinates first). *)
Theorem f_on_empty_array (A width : R) (pos tolerance : option R) :
  f NullPotential_init (Array []) = ([], Ok (Array [])) /\
  f (BarrierPotential_init A width pos) (Array []) = ([], Ok (Array [])) /\
  f (StepPotential_init A pos) (Array []) = ([], Ok (Array [])) /\
  f (PointPotential_init A pos tolerance) (Array []) = ([], Raise ValueError).
Proof.
  split; [reflexivity |].
  split; [rewrite BarrierPotential_farr_eval; reflexivity |].
  split; [rewrite StepPotential_farr_eval; reflexivity |].
  reflexivity.
Qed.
End potential_shapes.

Section point_closest.
Import potentials.

Lemma first_index_first (cond : list bool) (idx : nat) :
  first_index cond = Some idx ->
  cond !! idx = Some true /\ forall j, (j < idx)%nat -> cond !! j = Some false.
Proof.
  revert idx. induction cond as [|b cond IH]; intros idx; cbn [first_index].
  - discriminate.
  - destruct b.
    + intros [= <-]. split; [reflexivity | intros j Hj; lia].
    + destruct (first_index cond) as [i|]; [| discriminate].
      intros [= <-]. destruct (IH i eq_refl) as [Hi Hlt].
      split; [exact Hi |]. intros [|j] Hj; [reflexivity | apply Hlt; lia].
Qed.

(** X7: when the position lies within the range of the coordinates, the
    array evaluation of a point potential selects the first coordinate that
    is closest to the position.  It then compares the magnitude of that
    coordinate with the magnitude of [pos + epsilon]: if it is larger the
    zero array is returned with a warning, otherwise the amplitude is stored
    at that single index. *)
Theorem PointPotential_farr_closest (A : R) (pos tolerance : option R) (x : list R)
    (lo hi : R) :
  let p := default 0 pos in
  let eps := default (1 / 10000) tolerance in
  In lo x -> In hi x -> lo <= p <= hi ->
  exists idx xi,
    x !! idx = Some xi /\
    Forall (fun v => Rabs (xi - p) <= Rabs (v - p)) x /\
    (forall j v, (j < idx)%nat -> x !! j = Some v -> Rabs (xi - p) < Rabs (v - p)) /\
    f (PointPotential_init A pos tolerance) (Array x)
    = if Rgtb (Rabs xi) (Rabs (p + eps))
      then ([OutsideTolerance xi p eps], Ok (Array (zeros (length x))))
      else ([], Ok (Array (<[idx := A]> (zeros (length x))))).
Proof.
  intros p eps Hlo Hhi Hrange.
  assert (Hne : x <> []) by (intros ->; destruct Hlo).
  destruct (py_min_spec x Hne) as (mn & Hmin & _ & Hmn).
  destruct (py_max_spec x Hne) as (mx & Hmax & _ & Hmx).
  rewrite Forall_forall in Hmn, Hmx.
  specialize (Hmn lo (proj2 (list_elem_of_In _ _) Hlo)).
  specialize (Hmx hi (proj2 (list_elem_of_In _ _) Hhi)).
  set (shiftx := map (fun xi => Rabs (xi - p)) x).
  assert (Hsne : shiftx <> []) by (unfold shiftx; destruct x; [congruence | discriminate]).
  destruct (py_min_spec shiftx Hsne) as (ms & Hms & Hms_in & Hms_le).
  destruct (first_index_spec (map (fun s => Reqb s ms) shiftx)) as (idx & Hidx & _).
  { apply in_map_iff. exists ms. split; [apply Reqb_true; reflexivity | exact Hms_in]. }
  destruct (first_index_first _ _ Hidx) as [Hat Hbefore].
  assert (Hxi : exists xi, x !! idx = Some xi /\ Rabs (xi - p) = ms).
  { unfold shiftx in Hat. rewrite !list_lookup_fmap in Hat.
    destruct (x !! idx) as [xi|]; [| discriminate]. cbn in Hat.
    exists xi. split; [reflexivity |]. injection Hat as Hat. unfold Reqb in Hat.
    destruct (Req_dec_T (Rabs (xi - p)) ms); [assumption | discriminate]. }
  destruct Hxi as (xi & Hx & Hdist).
  exists idx, xi. split; [exact Hx |]. split; [| split].
  - rewrite Hdist. unfold shiftx in Hms_le. rewrite Forall_map in Hms_le. exact Hms_le.
  - intros j v Hj Hv. specialize (Hbefore j Hj).
    unfold shiftx in Hbefore. rewrite !list_lookup_fmap, Hv in Hbefore. cbn in Hbefore.
    injection Hbefore as Hbefore. unfold Reqb in Hbefore.
    destruct (Req_dec_T (Rabs (v - p)) ms) as [|Hneq]; [discriminate |].
    rewrite Forall_forall in Hms_le.
    assert (Hle : ms <= Rabs (v - p)).
    { apply Hms_le. unfold shiftx. apply list_elem_of_In, (in_map (fun xi => Rabs (xi - p))).
      apply list_elem_of_In. eapply list_elem_of_lookup_2. exact Hv. }
    rewrite Hdist. lra.
  - unfold f, _farr. cbn [cls PointPotential_init Potential_init setattr].
    unfold PointPotential_farr.
    rewrite PointPotential_pos, PointPotential_epsilon, PointPotential_A.
    fold p eps. rewrite Hmin, Hmax, ?bind_ret_l.
    unfold Rgtb at 1. rewrite (Rltb_false p mn) by lra. rewrite ?bind_ret_l.
    rewrite (Rltb_false mx p) by lra.
    fold shiftx. rewrite Hms, ?bind_ret_l. unfold np_where_first. rewrite Hidx.
    rewrite ?bind_ret_l. unfold np_item. rewrite Hx, ?bind_ret_l.
    destruct (Rgtb (Rabs xi) (Rabs (p + eps))).
    + reflexivity.
    + unfold np_setitem. apply lookup_lt_Some in Hx.
      rewrite length_zeros, (proj2 (Nat.ltb_lt _ _) Hx), !bind_ret_l. reflexivity.
Qed.

(** The position 10 on the grid [0, 100]: the closest coordinate is 0, ten
    away from the position, and it receives the amplitude. *)
Lemma point_between_two_far_points :
  f (PointPotential_init 1 (Some 10) None) (Array [0; 100])
  = ([], Ok (Array [1; 0])).
Proof.
  destruct (PointPotential_farr_closest 1 (Some 10) None [0; 100] 0 100)
    as (idx & xi & Hx & Hclosest & _ & Hf).
  - left. reflexivity.
  - right. left. reflexivity.
  - cbn. lra.
  - rewrite Hf. cbn [default from_option] in *. cbv [Datatypes.id] in *.
    destruct idx as [|[|idx]]; cbn in Hx; [| | discriminate].
    + injection Hx as <-. unfold Rgtb. rewrite Rltb_false; [reflexivity |].
      unfold Rabs. destruct (Rcase_abs 0), (Rcase_abs (10 + 1 / 10000)); lra.
    + injection Hx as <-. exfalso.
      rewrite Forall_forall in Hclosest.
      specialize (Hclosest 0 ltac:(left)). revert Hclosest.
      unfold Rabs. destruct (Rcase_abs (100 - 10)), (Rcase_abs (0 - 10)); lra.
Defined.
End point_closest.

Section more_point.
Import potentials.

(** The position 1 is the second coordinate of the grid [0, 1, 2]. *)
Lemma point_on_second_of_three_points :
  exists idx,
    [0; 1; 2] !! idx = Some 1 /\
    f (PointPotential_init 7 (Some 1) None) (Array [0; 1; 2])
    = ([], Ok (Array (<[idx := 7]> (zeros 3)))).
Proof.
  apply (PointPotential_farr_aligned_nonneg 7 (Some 1) None [0; 1; 2]).
  - right. left. reflexivity.
  - cbn. lra.
  - cbn. lra.
Defined.

(** The position -3 is the second coordinate of the grid [-4, -3, -2]. *)
Lemma point_at_minus_three_is_dropped :
  f (PointPotential_init 2 (Some (-3)) None) (Array [-4; -3; -2])
  = ([OutsideTolerance (-3) (-3) (1 / 10000)], Ok (Array [0; 0; 0])).
Proof.
  apply (PointPotential_farr_aligned_below_zero 2 (Some (-3)) None [-4; -3; -2]).
  - right. left. reflexivity.
  - cbn. lra.
  - cbn. lra.
Defined.
End more_point.

(** ** particle.py: the constructor and the wave packet *)
Section more_particle.
Import particle.

(** X10: with a wavenumber, the constructor returns exactly when the mass
    and the spread are not zero, with the four parameters stored and the
    energy [hbar^2/2/m * (k0^2 + 0.5/sigma^2)]; a zero mass or a zero spread
    raises [ZeroDivisionError]. *)
Theorem Particle_init_with_wavenumber (x0 sigma k m : R) :
  (m <> 0 -> sigma <> 0 ->
   Particle_init x0 sigma (Some k) m
   = ([], Ok {| particle.x0 := x0; particle.m := m; particle.sigma := sigma;
                particle.k0 := k;
                E := hbar ^ 2 / 2 / m * (k ^ 2 + 1 / 2 / sigma ^ 2) |})) /\
  (m = 0 \/ sigma = 0 ->
   Particle_init x0 sigma (Some k) m = ([], Raise ZeroDivisionError)).
Proof.
  split.
  - intros Hm Hs. apply Particle_init_returns; assumption.
  - intros H. unfold Particle_init, py_div.
    destruct (Req_dec_T m 0) as [|Hm]; [reflexivity |].
    destruct H as [H|H]; [contradiction |]. subst sigma.
    rewrite bind_ret_l. cbn [py_sqr_opt]. rewrite bind_ret_l.
    destruct (Req_dec_T (0 ^ 2) 0) as [|Hz]; [reflexivity |].
    exfalso. apply Hz. ring.
Qed.

Lemma particle_of_the_scenario :
  Particle_init 50 5 (Some (3 / 10)) 1
  = ([], Ok {| particle.x0 := 50; particle.m := 1; particle.sigma := 5;
               particle.k0 := 3 / 10;
               E := hbar ^ 2 / 2 / 1 * ((3 / 10) ^ 2 + 1 / 2 / 5 ^ 2) |}) /\
  Particle_init 50 0 (Some (3 / 10)) 1 = ([], Raise ZeroDivisionError).
Proof.
  destruct (Particle_init_with_wavenumber 50 5 (3 / 10) 1) as [Hok _].
  destruct (Particle_init_with_wavenumber 50 0 (3 / 10) 1) as [_ Hfail].
  split; [apply Hok; lra | apply Hfail; right; reflexivity].
Defined.

Lemma zip_with_map_same {A B C D} (g : B -> C -> D) (p : A -> B) (q : A -> C)
    (l : list A) :
  zip_with g (map p l) (map q l) = map (fun a => g (p a) (q a)) l.
Proof. induction l as [|a l IH]; cbn; [reflexivity | rewrite IH; reflexivity]. Qed.

Lemma prob_envelope (self : Particle) (x : list R) (t : R) :
  prob self x t = map (fun xi => envelope self t xi ^ 2) x.
Proof.
  unfold prob, real, imag. rewrite !map_map, zip_with_map_same.
  apply map_ext. intros xi.
  pose proof (sin2_cos2 (k0 self * xi)) as H. unfold Rsqr in H. nra.
Qed.

(** X11: the probability density of the packet is the square of its
    Gaussian envelope at every coordinate: it does not depend on the
    wavenumber. *)
Theorem prob_is_squared_envelope (self : Particle) (x : list R) (t : R) :
  prob self x t
  = map (fun xi => exp (- (xi - t - x0 self) ^ 2 / (2 * sigma self ^ 2)) ^ 2) x.
Proof. exact (prob_envelope self x t). Qed.

Lemma np_sum_nonneg (l : list R) : Forall (fun v => 0 <= v) l -> 0 <= np_sum l.
Proof.
  intros Hall. induction Hall as [|a l Ha _ IH]; cbn; [lra |].
  fold (np_sum l). lra.
Qed.

Lemma np_sum_pos_iff (l : list R) :
  Forall (fun v => 0 <= v) l -> 0 < np_sum l <-> Exists (fun v => v <> 0) l.
Proof.
  intros Hall. induction Hall as [|a l Ha Hl IH]; cbn.
  - split; [lra | intros H; inversion H].
  - fold (np_sum l). pose proof (np_sum_nonneg l Hl) as Hs. split.
    + intros Hpos. destruct (Req_dec a 0) as [-> | Hne].
      * right. apply IH. lra.
      * left. exact Hne.
    + intros H. inversion H as [? ? Hne | ? ? Hex]; subst.
      * lra.
      * apply IH in Hex. lra.
Qed.

Lemma prob_nonneg (self : Particle) (x : list R) (t : R) :
  Forall (fun v => 0 <= v) (prob self x t).
Proof.
  unfold prob, real, imag. rewrite !map_map, zip_with_map_same.
  apply Forall_map, Forall_forall. intros xi _. cbn beta.
  pose proof (pow2_ge_0 (envelope self t xi * cos (k0 self * xi))).
  pose proof (pow2_ge_0 (envelope self t xi * sin (k0 self * xi))). lra.
Qed.

(** X12: no value of the probability density is negative, and with a
    positive spatial step the probability mass [dx * sum(prob(x, t))] is
    positive exactly when the density is not zero at some grid point. *)
Theorem initial_mass_positive (self : Particle) (x : list R) (t dx : R) :
  0 < dx ->
  Forall (fun v => 0 <= v) (prob self x t) /\
  (0 < dx * np_sum (prob self x t) <-> Exists (fun v => v <> 0) (prob self x t)).
Proof.
  intros Hdx. pose proof (prob_nonneg self x t) as Hall.
  split; [exact Hall |].
  rewrite <- (np_sum_pos_iff _ Hall).
  pose proof (np_sum_nonneg _ Hall) as Hs. split; intros Hp; nra.
Qed.

Lemma packet_mass_positive :
  Forall (fun v => 0 <= v) (prob examples.packet [0; 1; 2] 0) /\
  (0 < 1 * np_sum (prob examples.packet [0; 1; 2] 0)
   <-> Exists (fun v => v <> 0) (prob examples.packet [0; 1; 2] 0)).
Proof. apply (initial_mass_positive examples.packet [0; 1; 2] 0 1). lra. Defined.

(** X13: for a particle of non-zero spread every value of the probability
    density lies between 0 and 1, both included, and the value at the
    centre [x0 + t] of the packet is 1. *)
Theorem prob_bounds (self : Particle) (x : list R) (t : R) :
  sigma self <> 0 ->
  Forall (fun v => 0 <= v <= 1) (prob self x t) /\
  prob self [x0 self + t] t = [1].
Proof.
  intros Hs. rewrite !prob_envelope. split.
  - apply Forall_map, Forall_forall. intros xi _. unfold envelope.
    set (a := - (xi - t - x0 self) ^ 2 / (2 * sigma self ^ 2)).
    assert (Ha : a <= 0).
    { unfold a. assert (0 < 2 * sigma self ^ 2)
        by (pose proof (pow2_ge_0 (sigma self));
            pose proof (pow_nonzero (sigma self) 2 Hs); lra).
      pose proof (pow2_ge_0 (xi - t - x0 self)) as Hd.
      pose proof (Rinv_0_lt_compat _ H) as Hinv.
      unfold Rdiv. nra. }
    pose proof (exp_pos a) as Hpos.
    assert (exp a <= 1).
    { destruct Ha as [Hlt | ->]; [| rewrite exp_0; lra].
      left. rewrite <- exp_0. apply exp_increasing. exact Hlt. }
    split; [apply pow2_ge_0 | nra].
  - cbn [map]. unfold envelope.
    replace (- (x0 self + t - t - x0 self) ^ 2 / (2 * sigma self ^ 2)) with 0
      by (unfold Rdiv; ring).
    rewrite exp_0. f_equal. ring.
Qed.

Lemma packet_density_within_unit :
  Forall (fun v => 0 <= v <= 1) (prob examples.packet [0; 1; 2] 0) /\
  prob examples.packet [1 + 0] 0 = [1].
Proof. apply (prob_bounds examples.packet [0; 1; 2] 0). cbn. lra. Defined.
End more_particle.

(** ** simulation.py: the field and the constructor *)
Section more_construction.
Import potentials simulation.

Lemma bind_Ok_l {A B} (ws : list warning) (a : A) (k : A -> M B) :
  bind (ws, Ok a) k = (ws ++ fst (k a), snd (k a)).
Proof. cbn. destruct (k a). reflexivity. Qed.

Lemma evalPotentials_loop_sums (scale : list R) (pots : list object)
    (contribs : list (list warning * list R)) :
  Forall2 (fun pot c => f pot (Array scale) = (fst c, Ok (Array (snd c))))
          pots contribs ->
  forall V, Forall (fun c => length (snd c) = length V) contribs ->
    evalPotentials_loop V scale pots
    = (concat (map fst contribs),
       Ok (fold_left (zip_with Rplus) (map snd contribs) V)).
Proof.
  induction 1 as [|pot c pots contribs Hpot _ IH]; intros V Hlen.
  - reflexivity.
  - inversion Hlen as [|? ? Hc Hrest]; subst.
    cbn [evalPotentials_loop map concat fold_left].
    rewrite Hpot, bind_Ok_l. cbn [np_iadd].
    rewrite np_imap2_same by exact Hc. rewrite bind_ret_l.
    rewrite IH.
    + cbn [fst snd]. reflexivity.
    + eapply Forall_impl; [exact Hrest |]. cbn. intros c' Hc'.
      rewrite length_zip_with. lia.
Qed.

(** X14: the field is the elementwise sum of the contributions: when every
    potential evaluates to an array of [N] values, [evalPotentials] returns
    the zero array with the contributions added one after the other, and
    emits their warnings in order. *)
Theorem evalPotentials_sums (n : nat) (scale : list R) (pots : list object)
    (contribs : list (list warning * list R)) :
  Forall2 (fun pot c => f pot (Array scale) = (fst c, Ok (Array (snd c))))
          pots contribs ->
  Forall (fun c => length (snd c) = n) contribs ->
  evalPotentials n pots scale
  = (concat (map fst contribs),
     Ok (fold_left (zip_with Rplus) (map snd contribs) (zeros n))).
Proof.
  intros Hpots Hlen. unfold evalPotentials.
  apply evalPotentials_loop_sums; [exact Hpots |].
  rewrite length_zeros. exact Hlen.
Qed.

(** A step of height 2 at 1 and a barrier of height 3 around 1 on the grid
    [0, 1, 2]. *)
Lemma step_plus_barrier_on_three_points :
  evalPotentials 3 [StepPotential_init 2 (Some 1); BarrierPotential_init 3 (1 / 2) (Some 1)]
                 [0; 1; 2]
  = ([], Ok [0 + 0 + 0; 0 + 2 + 3; 0 + 2 + 0]).
Proof.
  rewrite (evalPotentials_sums 3 [0; 1; 2]
             [StepPotential_init 2 (Some 1); BarrierPotential_init 3 (1 / 2) (Some 1)]
             [([], [0; 2; 2]); ([], [0; 3; 0])]).
  - reflexivity.
  - repeat constructor; cbn [fst snd].
    + rewrite StepPotential_farr_eval. cbn [map].
      cbv [default from_option Datatypes.id]. Rdecide. reflexivity.
    + rewrite BarrierPotential_farr_eval. cbn [map].
      cbv [default from_option Datatypes.id]. Rdecide. reflexivity.
  - repeat constructor.
Defined.
End more_construction.

Section more_construction2.
Import potentials simulation.

Lemma np_broadcast_to_inv (n : nat) (b r : list R) (ws : list warning) :
  np_broadcast_to n b = (ws, Ok r) -> length b = n \/ length b = 1%nat.
Proof.
  unfold np_broadcast_to. destruct (Nat.eqb_spec (length b) n) as [Heq|_].
  - left. exact Heq.
  - destruct b as [|y [|z b]]; try discriminate. right. reflexivity.
Qed.

Lemma Simulation_init_scale (particle : particle.Particle) (pots : list object)
    (n : nat) (dx : R) (xlims : option (R * R)) (T : option Z) (dt : option R)
    (ws : list warning) (self : Simulation) :
  Simulation_init particle pots n dx xlims T dt = (ws, Ok self) ->
  exists ws1 ws2,
    np_arange (match xlims with None => 0 | Some (lo, _) => lo end)
              (match xlims with None => fl (INR n * dx) | Some (_, hi) => hi end) dx
    = (ws1, Ok (scale self)) /\
    evalPotentials n pots (scale self) = (ws2, Ok (V self)) /\
    potentials self = pots /\
    simulation.T self = match T with None => (5 * Z.of_nat n)%Z | Some T => T end.
Proof.
  unfold Simulation_init. intros H.
  apply bind_Ok_inv in H as (ws1 & sc & ws2 & Hsc & H & _).
  apply bind_Ok_inv in H as (ws3 & V0 & ws4 & HV & [= _ <-] & _).
  cbn [scale V potentials simulation.T]. eauto 10.
Qed.

(** With at least one potential, the first in-place addition of
    [evalPotentials] broadcasts the contribution on the grid into the field
    of [N] values. *)
Lemma Simulation_init_fits (particle : particle.Particle) (pots : list object)
    (n : nat) (dx : R) (xlims : option (R * R)) (T : option Z) (dt : option R)
    (ws : list warning) (self : Simulation) :
  Simulation_init particle pots n dx xlims T dt = (ws, Ok self) ->
  pots <> [] ->
  length (scale self) = n \/ length (scale self) = 1%nat.
Proof.
  intros H Hne.
  apply Simulation_init_scale in H as (ws1 & ws2 & _ & HV & _ & _).
  destruct pots as [|pot rest]; [congruence |].
  unfold evalPotentials in HV. cbn [evalPotentials_loop] in HV.
  apply bind_Ok_inv in HV as (ws3 & r & ws4 & Hf & HV & _).
  apply bind_Ok_inv in HV as (ws5 & V1 & ws6 & Hadd & _ & _).
  apply f_shape in Hf. destruct r as [y|a]; [contradiction |].
  cbn [np_iadd] in Hadd. unfold np_imap2 in Hadd.
  apply bind_Ok_inv in Hadd as (ws7 & b & ws8 & Hb & _ & _).
  apply np_broadcast_to_inv in Hb. rewrite length_zeros in Hb.
  rewrite <- Hf. exact Hb.
Qed.

(** X15: a construction with at least one potential succeeds only when the
    grid has [N] points or a single point: any other grid makes the first
    in-place addition of [evalPotentials] raise. *)
Theorem Simulation_init_grid_fits (particle : particle.Particle) (pots : list object)
    (n : nat) (dx : R) (xlims : option (R * R)) (T : option Z) (dt : option R)
    (ws : list warning) (self : Simulation) :
  Simulation_init particle pots n dx xlims T dt = (ws, Ok self) ->
  pots <> [] ->
  length (scale self) = n \/ length (scale self) = 1%nat.
Proof. exact (Simulation_init_fits particle pots n dx xlims T dt ws self). Qed.

Lemma free3_grid_fits :
  length (scale examples.free3) = 3%nat \/ length (scale examples.free3) = 1%nat.
Proof.
  apply (Simulation_init_grid_fits examples.packet [NullPotential_init] 3 1 None None None
           [] examples.free3 free3_constructed).
  discriminate.
Defined.

(** X16: a list of potentials that contains an object of the base class
    [Potential] never yields a field: the evaluation raises at that object
    at the latest. *)
Theorem evalPotentials_base_class (n : nat) (scale : list R) (pots : list object)
    (pot : object) (ws : list warning) (V : list R) :
  In pot pots -> cls pot = Potential ->
  evalPotentials n pots scale <> (ws, Ok V).
Proof.
  intros Hin Hcls. unfold evalPotentials. generalize (zeros n) as V0.
  revert ws. induction pots as [|q pots IH]; intros ws V0 H; [destruct Hin |].
  cbn [evalPotentials_loop] in H.
  apply bind_Ok_inv in H as (ws1 & r & ws2 & Hf & H & _).
  apply bind_Ok_inv in H as (ws3 & V1 & ws4 & _ & H & _).
  destruct Hin as [-> | Hin].
  - unfold f, _farr in Hf. rewrite Hcls in Hf. discriminate.
  - exact (IH Hin ws4 V1 H).
Qed.

Lemma base_class_after_free_particle :
  evalPotentials 3 [NullPotential_init; Potential_init Potential "generic"] [0; 1; 2]
  <> ([], Ok [0; 0; 0]).
Proof.
  apply (evalPotentials_base_class 3 [0; 1; 2]
           [NullPotential_init; Potential_init Potential "generic"]
           (Potential_init Potential "generic")).
  - right. left. reflexivity.
  - reflexivity.
Defined.

(** The grid of a construction without [xlims]. *)
Lemma Simulation_init_default_scale (particle : particle.Particle)
    (pots : list object) (n : nat) (dx : R) (T : option Z) (dt : option R)
    (ws : list warning) (self : Simulation) :
  Simulation_init particle pots n dx None T dt = (ws, Ok self) ->
  scale self
  = map (fun i => INR i * dx)
        (seq 0 (Z.to_nat (Rceil (fl (fl (fl (INR n * dx) - 0) / dx))))).
Proof.
  intros H. apply Simulation_init_scale in H as (ws1 & ws2 & Hsc & _).
  unfold np_arange in Hsc. destruct (Req_dec_T dx 0); [discriminate |].
  injection Hsc as _ <-. apply map_ext. intros i. ring.
Qed.

(** X17: a construction without [xlims] that succeeds, with a binary64 step
    and [N <= 2^51], has the grid [0, dx, 2 dx, ...] of [N] or of [N + 1]
    points, and of [N] points when the product [N*dx] is a binary64 number
    itself (no rounding: a step that is a power of two, for instance).  It
    stores the potentials as given and has [T = 5 N] steps when [T] is left
    out. *)
Theorem Simulation_init_default_grid (particle : particle.Particle) (pots : list object)
    (n : nat) (dx : R) (T : option Z) (dt : option R)
    (ws : list warning) (self : Simulation) :
  Simulation_init particle pots n dx None T dt = (ws, Ok self) ->
  binary64 dx -> (Z.of_nat n <= 2 ^ 51)%Z ->
  (scale self = map (fun i => INR i * dx) (seq 0 n) \/
   scale self = map (fun i => INR i * dx) (seq 0 (S n))) /\
  (binary64 (INR n * dx) -> scale self = map (fun i => INR i * dx) (seq 0 n)) /\
  potentials self = pots /\
  simulation.T self = match T with None => (5 * Z.of_nat n)%Z | Some T => T end.
Proof.
  intros H Hb Hn. pose proof H as Hinv. pose proof H as Hsc.
  apply Simulation_init_inv in Hinv as (Hdx & _).
  apply Simulation_init_default_scale in Hsc.
  apply Simulation_init_scale in H as (ws1 & ws2 & _ & _ & Hpots & HT).
  split; [| split; [| split; assumption]].
  - rewrite Hsc.
    destruct (default_grid_quotient n dx Hb Hdx Hn) as [-> | ->]; [left | right].
    + rewrite Nat2Z.id. reflexivity.
    + replace (Z.to_nat (Z.of_nat n + 1)) with (S n) by lia. reflexivity.
  - intros Hex. rewrite Hsc.
    rewrite (fl_binary64 _ Hex), Rminus_0_r, (fl_binary64 _ Hex).
    rewrite (fl_eq_IZR (INR n * dx / dx) (Z.of_nat n)).
    + rewrite Rceil_IZR, Nat2Z.id. reflexivity.
    + rewrite <- INR_IZR_INZ. field. exact Hdx.
    + lia.
Qed.

Lemma free3_default_grid :
  scale examples.free3 = [INR 0 * 1; INR 1 * 1; INR 2 * 1] /\
  potentials examples.free3 = [NullPotential_init] /\
  simulation.T examples.free3 = 15%Z.
Proof.
  destruct (Simulation_init_default_grid examples.packet [NullPotential_init] 3 1
              None None [] examples.free3 free3_constructed)
    as (_ & Hgrid & Hpots & HT).
  - exists 1%Z, 0%Z. split; [cbn; lra | lia].
  - lia.
  - split; [| split; [exact Hpots | exact HT]].
    apply Hgrid. exists 3%Z, 0%Z. split; [cbn; lra | lia].
Defined.

(** X18: a simulation constructed with at least one potential (whose
    evaluation on the grid has to fit the field), with an integer number of
    steps, around a particle of non-zero mass, with a time step or with at
    least one grid point, can be run: for every non-zero sampling interval
    the generator runs to its end without raising. *)
Theorem constructed_simulation_runs (particle : particle.Particle) (pots : list object)
    (n : nat) (dx : R) (xlims : option (R * R)) (T : option Z) (dt : option R)
    (ws : list warning) (self : Simulation) (deltaT : Z) :
  Simulation_init particle pots n dx xlims T dt = (ws, Ok self) ->
  pots <> [] ->
  particle.m particle <> 0 ->
  (dt = None -> n <> 0%nat) ->
  deltaT <> 0%Z ->
  exists snaps, simulate self deltaT = ([], Ok snaps).
Proof.
  intros H Hne Hm Hn Hd.
  pose proof (Simulation_init_fits _ _ _ _ _ _ _ _ _ H Hne) as Hfit.
  pose proof (Simulation_init_runnable _ _ _ _ _ _ _ _ _ H Hfit Hm Hn) as Hrun.
  destruct (simulate_unfold self deltaT Hrun)
    as (dt' & st0 & psi_p & c1 & c2V & _ & _ & _ & Hst0 & Hc2V & _ & _ & ->).
  destruct (loop_runs (N self) c1 c2V deltaT (py_range (simulation.T self + 1)) st0)
    as (snaps & Hloop & _); [exact Hc2V | exact Hd | exact Hst0 |].
  exists snaps. exact Hloop.
Qed.

Lemma free3_runs : exists snaps, simulate examples.free3 7 = ([], Ok snaps).
Proof.
  apply (constructed_simulation_runs examples.packet [NullPotential_init] 3 1 None
           None None [] examples.free3 7 free3_constructed).
  - discriminate.
  - cbn. lra.
  - discriminate.
  - discriminate.
Defined.
End more_construction2.

(** ** simulation.py: how [simulate] ends *)
Section simulate_ends.
Import simulation.

(** X19: with a sampling interval of 0 the generator of a runnable
    simulation with [T >= 0] raises [ZeroDivisionError] at its first
    [t % deltaT], before it has yielded anything. *)
Theorem simulate_zero_interval (self : Simulation) :
  runnable self -> (0 <= T self)%Z ->
  simulate self 0 = ([], Raise ZeroDivisionError).
Proof.
  intros Hrun HT.
  destruct (simulate_unfold self 0 Hrun)
    as (dt & st0 & psi_p & c1 & c2V & _ & _ & _ & Hst0 & Hc2V & _ & _ & ->).
  destruct (step_spec (N self) c1 c2V st0 Hc2V Hst0) as (st1 & Hstep & _).
  rewrite py_range_head by exact HT. cbn [loop].
  rewrite Hstep, bind_ret_l. reflexivity.
Qed.

Lemma free3_zero_interval : simulate examples.free3 0 = ([], Raise ZeroDivisionError).
Proof. apply (simulate_zero_interval examples.free3 free3_runnable). cbn. lia. Defined.

(** X20: with a negative number of steps [T] the loop body never runs: the
    generator of a runnable simulation ends without yielding, whatever the
    sampling interval (0 included). *)
Theorem simulate_negative_T (self : Simulation) (deltaT : Z) :
  runnable self -> (T self < 0)%Z ->
  simulate self deltaT = ([], Ok []).
Proof.
  intros Hrun HT.
  destruct (simulate_unfold self deltaT Hrun)
    as (dt & st0 & psi_p & c1 & c2V & _ & _ & _ & _ & _ & _ & _ & ->).
  unfold py_range. replace (Z.to_nat (T self + 1)) with 0%nat by lia. reflexivity.
Qed.

Lemma free3_with_negative_T :
  simulate {| N := 3; T := -1; dx := 1; dt := None;
              scale := scale examples.free3; potentials := potentials examples.free3;
              V := V examples.free3; p := examples.packet |} 0
  = ([], Ok []).
Proof.
  apply simulate_negative_T.
  - exact free3_runnable.
  - cbn. lia.
Defined.

(** X21: when the time step has to be derived and the field is empty
    ([N = 0]), [simulate] raises [ValueError]: the maximum of an empty
    array. *)
Theorem simulate_empty_field (self : Simulation) (deltaT : Z) :
  dt self = None -> V self = [] -> particle.m (p self) * dx self ^ 2 <> 0 ->
  simulate self deltaT = ([], Raise ValueError).
Proof.
  intros Hdt HV Hden. unfold simulate, time_step.
  rewrite Hdt, HV, py_div_nonzero by exact Hden. rewrite bind_ret_l. reflexivity.
Qed.

Lemma empty_simulation_raises :
  simulate {| N := 0; T := 0; dx := 1; dt := None; scale := []; potentials := [];
              V := []; p := examples.packet |} 1
  = ([], Raise ValueError).
Proof. apply simulate_empty_field; [reflexivity | reflexivity | cbn; lra]. Defined.

Lemma np_broadcast_to_misfit (n : nat) (b : list R) :
  length b <> n -> length b <> 1%nat -> np_broadcast_to n b = raise ValueError.
Proof.
  intros Hn H1. unfold np_broadcast_to.
  destruct (Nat.eqb_spec (length b) n); [contradiction |].
  destruct b as [|y [|z b]]; try reflexivity. cbn in H1. congruence.
Qed.

(** X22: a simulation whose grid has neither [N] points nor a single one
    cannot be run: once the time step is there, the assignment of the wave
    packet to the present row raises [ValueError]. *)
Theorem simulate_grid_misfit (self : Simulation) (deltaT : Z) :
  length (scale self) <> N self -> length (scale self) <> 1%nat ->
  (dt self = None -> particle.m (p self) * dx self ^ 2 <> 0 /\ V self <> []) ->
  simulate self deltaT = ([], Raise ValueError).
Proof.
  intros Hn H1 Hdt.
  assert (Hstep : exists d, time_step self = ret d).
  { unfold time_step. destruct (dt self) as [d|]; [exists d; reflexivity |].
    destruct (Hdt eq_refl) as [Hden HV].
    rewrite py_div_nonzero by exact Hden. rewrite bind_ret_l.
    destruct (py_max_spec (V self) HV) as (vmax & -> & _).
    rewrite bind_ret_l. eexists. reflexivity. }
  destruct Hstep as (d & Hd).
  unfold simulate. rewrite Hd, bind_ret_l.
  unfold initial_state, assign_row. cbn [row psi_zeros present].
  rewrite length_zeros, np_broadcast_to_misfit
    by (unfold particle.real; rewrite length_map; assumption).
  reflexivity.
Qed.

(** The simulation of [ten_point_grid_constructed]: ten grid points, three
    field values. *)
Lemma ten_point_grid_cannot_run :
  simulate {| N := 3; T := 15; dx := 1; dt := None;
              scale := map (fun i => 0 + INR i * 1) (seq 0 10); potentials := [];
              V := zeros 3; p := examples.packet |} 5
  = ([], Raise ValueError).
Proof.
  apply simulate_grid_misfit.
  - cbn. lia.
  - cbn. lia.
  - intros _. split; [cbn; lra | discriminate].
Defined.
End simulate_ends.

(** ** simulation.py: the body of the loop *)
Section more_stepping.
Import simulation.

(** The update equations at the middle of three grid points. *)
Lemma update_equations_on_three_points :
  exists st',
    step 3 (1 / 2) [0; 4; 0]
      {| psi_r := {| past := [1; 2; 3]; present := [4; 5; 6]; future := [0; 0; 0] |};
         psi_i := {| past := [7; 8; 9]; present := [1; 3; 2]; future := [0; 0; 0] |} |}
    = ret st' /\
    present (psi_i st') !! 1%nat = Some (8 + 1 / 2 * (6 - 2 * 5 + 4) - 4 * 5) /\
    present (psi_r st') !! 1%nat = Some (2 - 1 / 2 * (2 - 2 * 3 + 1) + 4 * 3).
Proof.
  apply (step_update_equations 3 (1 / 2) [0; 4; 0] _ 0 4 2 4 5 6 8 1 3 2);
    try reflexivity.
  - repeat split; reflexivity.
  - cbn. lia.
Defined.

(** X24: on buffers of shape [(3, n)] and a field term of [n] values one
    pass through the loop body does not raise, keeps the shapes, and rotates
    the slices: the old present rows become the past rows and the new present
    rows are copies of the new future rows. *)
Theorem step_rotates (n : nat) (c1 : R) (c2V : list R) (st : state) :
  length c2V = n -> state_shape n st ->
  exists st',
    step n c1 c2V st = ([], Ok st') /\
    state_shape n st' /\
    past (psi_r st') = present (psi_r st) /\
    past (psi_i st') = present (psi_i st) /\
    present (psi_r st') = future (psi_r st') /\
    present (psi_i st') = future (psi_i st').
Proof.
  intros Hc2V Hst.
  destruct (step_spec n c1 c2V st Hc2V Hst)
    as (st' & Hstep & Hst' & Hpr & Hpi & Har & Hai & _).
  exists st'. auto 10.
Qed.

Lemma rotation_on_three_points :
  exists st',
    step 3 (1 / 2) [0; 4; 0]
      {| psi_r := {| past := [1; 2; 3]; present := [4; 5; 6]; future := [0; 0; 0] |};
         psi_i := {| past := [7; 8; 9]; present := [1; 3; 2]; future := [0; 0; 0] |} |}
    = ([], Ok st') /\
    past (psi_r st') = [4; 5; 6] /\ past (psi_i st') = [1; 3; 2] /\
    present (psi_r st') = future (psi_r st') /\
    present (psi_i st') = future (psi_i st').
Proof.
  destruct (step_rotates 3 (1 / 2) [0; 4; 0]
      {| psi_r := {| past := [1; 2; 3]; present := [4; 5; 6]; future := [0; 0; 0] |};
         psi_i := {| past := [7; 8; 9]; present := [1; 3; 2]; future := [0; 0; 0] |} |})
    as (st' & H & _ & Har & Hai & Hpr & Hpi).
  - reflexivity.
  - repeat split; reflexivity.
  - exists st'. auto.
Defined.

(** X25: at the two ends of the grid one pass through the loop body adds
    only the potential term to the future rows: the new present values at
    the indices 0 and [n - 1] are [imag_future - c2V * real_present] and
    [real_future + c2V * imag_present], whatever the neighbouring values. *)
Theorem step_at_the_ends (n : nat) (c1 : R) (c2V : list R) (st : state)
    (b : nat) (v fr fi r i : R) :
  length c2V = n -> state_shape n st ->
  b = 0%nat \/ b = (n - 1)%nat ->
  c2V !! b = Some v ->
  future (psi_r st) !! b = Some fr -> future (psi_i st) !! b = Some fi ->
  present (psi_r st) !! b = Some r -> present (psi_i st) !! b = Some i ->
  exists st',
    step n c1 c2V st = ([], Ok st') /\
    present (psi_i st') !! b = Some (fi - v * r) /\
    present (psi_r st') !! b = Some (fr + v * i).
Proof.
  intros Hc2V Hst Hb Hv Hfr Hfi Hr Hi.
  destruct (step_spec n c1 c2V st Hc2V Hst)
    as (st' & Hstep & _ & Hpr & Hpi & _ & _ & Hframe).
  exists st'. split; [exact Hstep |].
  destruct (Hframe b) as [Hi' Hr'].
  { intros Hin. apply elem_of_seq in Hin. lia. }
  rewrite Hpr, Hpi, Hi', Hr', !lookup_zip_with, Hfr, Hfi, Hv, Hr, Hi.
  split; reflexivity.
Qed.

Lemma left_end_on_three_points :
  exists st',
    step 3 (1 / 2) [2; 4; 0]
      {| psi_r := {| past := [1; 2; 3]; present := [4; 5; 6]; future := [1; 0; 0] |};
         psi_i := {| past := [7; 8; 9]; present := [1; 3; 2]; future := [3; 0; 0] |} |}
    = ([], Ok st') /\
    present (psi_i st') !! 0%nat = Some (3 - 2 * 4) /\
    present (psi_r st') !! 0%nat = Some (1 + 2 * 1).
Proof.
  apply (step_at_the_ends 3 (1 / 2) [2; 4; 0] _ 0 2 1 3 4 1); try reflexivity.
  - repeat split; reflexivity.
  - left. reflexivity.
Defined.
End more_stepping.

(** ** simulation.py: the sequence of dictionaries *)
Section more_sampling.
Import simulation.

Lemma bind_ret_inv {A B} (c : M A) (k : A -> M B) (b : B) :
  bind c k = ret b -> exists a, c = ret a /\ k a = ret b.
Proof.
  intros H. apply bind_Ok_inv in H as (ws1 & a & ws2 & Hc & Hk & Hws).
  symmetry in Hws. apply app_eq_nil in Hws as [-> ->]. exists a. auto.
Qed.

(** The loop with any sampling interval, read off the loop that samples
    every step. *)
Lemma loop_subsequence (n : nat) (c1 : R) (c2V : list R) (d : Z) (ts : list Z) :
  d <> 0%Z ->
  forall (st : state) (all : list snapshot),
    loop n c1 c2V 1 ts st = ret all ->
    loop n c1 c2V d ts st
    = ret (map snd (filter (fun ts => (fst ts mod d)%Z = 0%Z) (zip ts all))).
Proof.
  intros Hd. induction ts as [|t ts IH]; intros st all; cbn [loop].
  - intros [= <-]. reflexivity.
  - intros H.
    apply bind_ret_inv in H as (st' & Hstep & H).
    unfold py_mod in H. cbn [Z.eqb] in H. rewrite bind_ret_l, Z.mod_1_r in H.
    cbn [Z.eqb] in H.
    apply bind_ret_inv in H as (s & Hs & H).
    apply bind_ret_inv in H as (rest & Hrest & [= <-]).
    rewrite Hstep, bind_ret_l. unfold py_mod.
    rewrite (proj2 (Z.eqb_neq _ _) Hd), bind_ret_l.
    cbn [zip zip_with]. rewrite filter_cons. cbn [fst].
    rewrite (IH st' rest Hrest).
    destruct (Z.eqb_spec (t mod d) 0) as [Hdiv|Hndiv].
    + rewrite Hs, !bind_ret_l, decide_True by exact Hdiv. reflexivity.
    + rewrite decide_False by exact Hndiv. reflexivity.
Qed.

Lemma filter_mod_one (ts : list Z) :
  filter (fun t => (t mod 1)%Z = 0%Z) ts = ts.
Proof.
  induction ts as [|t ts IH]; [reflexivity |].
  rewrite filter_cons, decide_True by apply Z.mod_1_r. rewrite IH. reflexivity.
Qed.

(** X26: sampling does not influence the integration.  A runnable
    simulation sampled at every step yields one dictionary per step
    [t = 0, ..., T], and sampled with any other non-zero interval [deltaT]
    it yields exactly those of them whose step [t] is a multiple of
    [deltaT]. *)
Theorem sampling_selects_steps (self : Simulation) (deltaT : Z) :
  runnable self -> deltaT <> 0%Z ->
  exists all,
    simulate self 1 = ([], Ok all) /\
    length all = Z.to_nat (T self + 1) /\
    simulate self deltaT
    = ([], Ok (map snd (filter (fun ts => (fst ts mod deltaT)%Z = 0%Z)
                               (zip (py_range (T self + 1)) all)))).
Proof.
  intros Hrun Hd.
  destruct (simulate_unfold self 1 Hrun)
    as (dt & st0 & psi_p & c1 & c2V & Hdt & Hinit & Hcs & Hst0 & Hc2V & _ & _ & H1).
  destruct (loop_runs (N self) c1 c2V 1 (py_range (T self + 1)) st0)
    as (all & Hloop & _ & Hlen); [exact Hc2V | discriminate | exact Hst0 |].
  exists all. split; [rewrite H1; exact Hloop |]. split.
  - rewrite Hlen, filter_mod_one. unfold py_range.
    rewrite length_map, length_seq. reflexivity.
  - unfold simulate. rewrite Hdt, bind_ret_l, Hinit, bind_ret_l, Hcs, bind_ret_l.
    cbn [fst snd]. apply loop_subsequence; assumption.
Qed.

Lemma free3_every_fifth_step :
  exists all,
    simulate examples.free3 1 = ([], Ok all) /\
    length all = 16%nat /\
    simulate examples.free3 5
    = ([], Ok (map snd (filter (fun ts => (fst ts mod 5)%Z = 0%Z)
                               (zip (py_range 16) all)))).
Proof.
  apply (sampling_selects_steps examples.free3 5 free3_runnable). discriminate.
Defined.

(** X27: in every dictionary a runnable simulation yields, the probability
    array is the elementwise sum of the squares of the real and imaginary
    arrays of the same dictionary, so none of its values is negative. *)
Theorem snapshots_are_consistent (self : Simulation) (deltaT : Z) :
  runnable self -> deltaT <> 0%Z ->
  exists snaps,
    simulate self deltaT = ([], Ok snaps) /\
    Forall (fun s =>
              prob s = zip_with Rplus (map (fun v => v ^ 2) (real s))
                                      (map (fun v => v ^ 2) (imag s)) /\
              Forall (fun v => 0 <= v) (prob s)) snaps.
Proof.
  intros Hrun Hd.
  destruct (simulate_unfold self deltaT Hrun)
    as (dt & st0 & psi_p & c1 & c2V & _ & _ & _ & Hst0 & Hc2V & _ & _ & ->).
  destruct (loop_spec (N self) c1 c2V (state_shape (N self))
              (fun s =>
                 prob s = zip_with Rplus (map (fun v => v ^ 2) (real s))
                                         (map (fun v => v ^ 2) (imag s)) /\
                 Forall (fun v => 0 <= v) (prob s))
              deltaT Hd) with (ts := py_range (T self + 1)) (st := st0)
    as (snaps & Hloop & Hall & _).
  - intros st Hst.
    destruct (step_spec (N self) c1 c2V st Hc2V Hst) as (st' & Hstep & Hst' & _).
    exists st'. split; [exact Hstep |]. split; [exact Hst' |].
    eexists. split; [apply (sample_same (N self)); exact Hst' |].
    cbn [prob real imag]. split; [reflexivity |].
    apply Forall_forall. intros v Hv.
    apply list_elem_of_lookup in Hv as [i Hv].
    rewrite lookup_zip_with, !list_lookup_fmap in Hv.
    destruct (present (psi_r st') !! i) as [a|]; [| discriminate].
    destruct (present (psi_i st') !! i) as [b|]; [| discriminate].
    cbn in Hv. injection Hv as <-.
    pose proof (pow2_ge_0 a). pose proof (pow2_ge_0 b). cbn in *. lra.
  - exact Hst0.
  - exists snaps. split; assumption.
Qed.

Lemma free3_probabilities_are_squares :
  exists snaps,
    simulate examples.free3 5 = ([], Ok snaps) /\
    Forall (fun s =>
              prob s = zip_with Rplus (map (fun v => v ^ 2) (real s))
                                      (map (fun v => v ^ 2) (imag s)) /\
              Forall (fun v => 0 <= v) (prob s)) snaps.
Proof.
  apply (snapshots_are_consistent examples.free3 5 free3_runnable). discriminate.
Defined.

(** X28: when the time step is derived for a particle of positive mass, a
    non-zero spatial step and a field with at least one non-negative value,
    it is positive, and the coefficient [c1 = hbar*dt/(m*dx**2)] of the
    stencil is [1 / (2 + m*dx**2*max(V))]: positive and at most 1/2. *)
Theorem derived_time_step (self : Simulation) (v : R) :
  dt self = None -> 0 < particle.m (p self) -> dx self <> 0 ->
  In v (V self) -> 0 <= v ->
  exists d c1 c2V vmax,
    py_max (V self) = ([], Ok vmax) /\
    time_step self = ([], Ok d) /\
    constants self d = ([], Ok (c1, c2V)) /\
    0 < d /\
    c1 = 1 / (2 + particle.m (p self) * dx self ^ 2 * vmax) /\
    0 < c1 <= 1 / 2.
Proof.
  intros Hdt Hm Hdx Hin Hv.
  assert (Hne : V self <> []) by (intros HV; rewrite HV in Hin; destruct Hin).
  destruct (py_max_spec (V self) Hne) as (vmax & Hmax & _ & Hle).
  rewrite Forall_forall in Hle.
  specialize (Hle v (proj2 (list_elem_of_In _ _) Hin)).
  set (k := particle.m (p self) * dx self ^ 2).
  assert (Hk : 0 < k).
  { unfold k. apply Rmult_lt_0_compat; [exact Hm |].
    pose proof (pow2_ge_0 (dx self)). pose proof (pow_nonzero (dx self) 2 Hdx). lra. }
  assert (Hden : 0 < 2 + k * vmax) by nra.
  exists (particle.hbar / (2 * particle.hbar ^ 2 / k + vmax)).
  unfold time_step, constants. rewrite Hdt, Hmax. fold k.
  rewrite !py_div_nonzero by lra. rewrite !bind_ret_l.
  do 3 eexists. split; [reflexivity |]. split; [reflexivity |].
  split; [reflexivity |]. unfold particle.hbar.
  assert (Hsum : 0 < 2 * 1 ^ 2 / k + vmax).
  { replace (2 * 1 ^ 2 / k + vmax) with ((2 + k * vmax) / k) by (field; lra).
    apply Rdiv_lt_0_compat; assumption. }
  assert (Hc1 : 1 * (1 / (2 * 1 ^ 2 / k + vmax)) / k = 1 / (2 + k * vmax))
    by (field; split; [lra |]; replace (2 * 1 ^ 2 + vmax * k) with (2 + k * vmax) by ring; lra).
  split; [apply Rdiv_lt_0_compat; lra |].
  split; [exact Hc1 |]. rewrite Hc1.
  split; [apply Rdiv_lt_0_compat; lra |].
  apply Rmult_le_reg_r with (2 + k * vmax); [exact Hden |].
  unfold Rdiv. rewrite Rmult_assoc, Rinv_l by lra. nra.
Qed.

Lemma free3_stencil_coefficient :
  exists d c1 c2V vmax,
    py_max (V examples.free3) = ([], Ok vmax) /\
    time_step examples.free3 = ([], Ok d) /\
    constants examples.free3 d = ([], Ok (c1, c2V)) /\
    0 < d /\
    c1 = 1 / (2 + 1 * 1 ^ 2 * vmax) /\
    0 < c1 <= 1 / 2.
Proof.
  apply (derived_time_step examples.free3 (0 + 0)).
  - reflexivity.
  - cbn. lra.
  - cbn. lra.
  - left. reflexivity.
  - lra.
Defined.
End more_sampling.
